(** * pyprob/stats.py: MCMC convergence diagnostics

    A shallow embedding of the numerical estimators of [pyprob/stats.py]
    ([compute_acorr], [ess_1d], [mono_seq_ess], [auto_correlation_time],
    [effective_sample_size] and [gelman_rubin_diagnostic]) together with
    the properties their design document states about them.

    Number model.  The source computes on NumPy [float64] values.  Here a
    finite float is an exact rational ([Q], compared with [==]): rounding
    and overflow are outside the model.  Where the source leaves the finite
    numbers on purpose, the embedding says so explicitly: the [float('inf')]
    sentinel of [ess_1d] is the constructor [PosInf], and [np.sqrt], which
    is not closed on the rationals, is taken in the real numbers after the
    rational argument has been computed.  A division whose divisor is zero
    gives NumPy's [inf]/[nan]; [Q]'s total division does not represent
    these, so statements that depend on such a quotient carry the
    hypothesis that the divisor is non-zero. *)

From Stdlib Require Import String.
From Stdlib Require Import QArith Qminmax ZArith Arith List Bool Lia Psatz.
From Stdlib Require Import Reals Qreals.
From Stdlib Require Import DecimalString DecimalNat Permutation.
Import ListNotations.

Local Open Scope Q_scope.

(** ** NumPy primitives on one-dimensional arrays *)

Module Np.

(** [len(x)], [n], [float(n)]: a Python integer used as a number. *)
Definition of_nat (n : nat) : Q := inject_Z (Z.of_nat n).

(** [np.sum] of a one-dimensional array. *)
Definition sum (l : list Q) : Q := fold_right Qplus 0 l.

(** [np.mean] of a one-dimensional array. *)
Definition mean (l : list Q) : Q := sum l / of_nat (length l).

(** [a - c] for an array [a] and a scalar [c] (broadcast). *)
Definition sub_scalar (a : list Q) (c : Q) : list Q :=
  map (fun v => v - c) a.

(** [a * b] for two arrays of the same length. *)
Definition mul (a b : list Q) : list Q :=
  map (fun p => fst p * snd p) (combine a b).

(** [a - b] for two arrays of the same length. *)
Definition sub (a b : list Q) : list Q :=
  map (fun p => fst p - snd p) (combine a b).

(** [a + b] for two arrays of the same length. *)
Definition add (a b : list Q) : list Q :=
  map (fun p => fst p + snd p) (combine a b).

(** [a / b] for two arrays of the same length. *)
Definition div (a b : list Q) : list Q :=
  map (fun p => fst p / snd p) (combine a b).

(** [np.var] of a one-dimensional array (population variance, [ddof = 0]). *)
Definition var (l : list Q) : Q :=
  mean (map (fun v => (v - mean l) ^ 2) l).

End Np.

(** ** The autocorrelation kernel *)

(** [compute_acorr(x, k, mu, var)], lines 98-105.  The slices [x[:(n - k)]]
    and [x[k:]] are [firstn] and [skipn]; the lag satisfies [k <= n] at every
    call the module makes, where [n - k] is the natural-number difference.
    The value is the one of the source for [k < n] and [var] non-zero: the
    mean of an empty slice ([k >= n]) and a zero [var] give [nan] or [inf]
    in NumPy, which the rational quotient does not represent. *)
Definition compute_acorr (x : list Q) (k : nat) (mu var : Q) : Q :=
  let n := length x in
  let acorr := Np.mul (Np.sub_scalar (firstn (n - k) x) mu)
                      (Np.sub_scalar (skipn k x) mu) in
  Np.mean acorr / var * Np.of_nat (n - k) / Np.of_nat n.

(** The lag-[k] autocorrelation as the design document writes it:
    the mean over [i = 0 .. n-k-1] of [(x[i] - mu) * (x[i+k] - mu)], divided
    by the variance, times the correction factor [(n - k) / n]. *)
Definition acorr_spec (x : list Q) (k : nat) (mu var : Q) : Q :=
  let n := length x in
  let products :=
    map (fun i => (nth i x 0 - mu) * (nth (i + k) x 0 - mu)) (seq 0 (n - k)) in
  (Np.sum products / Np.of_nat (n - k)) / var
  * (Np.of_nat (n - k) / Np.of_nat n).

(** ** The monotone-sequence estimator for one dimension *)

(** Comparison of two floats, [a > b] and [a < b]. *)
Definition Qgt_bool (a b : Q) : bool := negb (Qle_bool a b).
Definition Qlt_bool (a b : Q) : bool := negb (Qle_bool b a).

(** The effective sample size [ess_1d] hands back: a finite number or the
    sentinel [float('inf')]. *)
Inductive ess_value : Type :=
| Fin (q : Q)
| PosInf.

(** Equality of two results up to the equality of rationals. *)
Definition ess_equiv (a b : ess_value) : Prop :=
  match a, b with
  | Fin p, Fin q => p == q
  | PosInf, PosInf => True
  | _, _ => False
  end.

(** A result is negative when it is a finite negative number. *)
Definition ess_negative (e : ess_value) : Prop :=
  match e with
  | Fin q => q < 0
  | PosInf => False
  end.

(** [n / auto_cor_sum], line 92: [n] is the positive length of the series
    and [auto_cor_sum] a [float64], so a zero divisor does not raise: NumPy's
    true division evaluates [n / 0.0] to [inf]. *)
Definition np_truediv (n s : Q) : ess_value :=
  if Qeq_bool s 0 then PosInf else Fin (n / s).

(** The local variables of [ess_1d] that the loop reads and writes. *)
Record ess_state : Type := mk_ess_state {
  lag : nat;
  auto_cor_sum : Q;
  even_auto_cor : Q;
  odd_auto_cor : Q;
  running_min : Q;
  auto_cor : list Q
}.

Section Ess1d.

Variable x : list Q.
Variables mu var : Q.

(** Lines 66-78: the state on entry to the [while] loop. *)
Definition ess_init : ess_state :=
  let auto_cor := [] in
  let lag := 0%nat in
  let auto_cor_sum := 0 in
  let even_auto_cor := compute_acorr x lag mu var in
  let auto_cor := auto_cor ++ [even_auto_cor] in
  let auto_cor_sum := auto_cor_sum - even_auto_cor in
  let lag := (lag + 1)%nat in
  let odd_auto_cor := compute_acorr x lag mu var in
  let auto_cor := auto_cor ++ [odd_auto_cor] in
  let running_min := even_auto_cor + odd_auto_cor in
  mk_ess_state lag auto_cor_sum even_auto_cor odd_auto_cor running_min
               auto_cor.

(** Line 80: the loop condition. *)
Definition ess_cond (st : ess_state) : bool :=
  Qgt_bool (even_auto_cor st + odd_auto_cor st) 0
  && (lag st + 2 <? length x)%nat.

(** Lines 81-90: one pass through the loop body.  Python's [min(a, b)]
    keeps [a] unless [b < a], as [Qmin] does. *)
Definition ess_body (st : ess_state) : ess_state :=
  let running_min :=
    Qmin (running_min st) (even_auto_cor st + odd_auto_cor st) in
  let auto_cor_sum := auto_cor_sum st + 2 * running_min in
  let lag := (lag st + 1)%nat in
  let even_auto_cor := compute_acorr x lag mu var in
  let auto_cor := auto_cor st ++ [even_auto_cor] in
  let lag := (lag + 1)%nat in
  let odd_auto_cor := compute_acorr x lag mu var in
  let auto_cor := auto_cor ++ [odd_auto_cor] in
  mk_ess_state lag auto_cor_sum even_auto_cor odd_auto_cor running_min
               auto_cor.

(** The [while] loop, with a bound on the number of passes; [None] when
    the bound is reached before the condition fails. *)
Fixpoint ess_loop (fuel : nat) (st : ess_state) : option ess_state :=
  match fuel with
  | O => None
  | S fuel' =>
      if ess_cond st then ess_loop fuel' (ess_body st) else Some st
  end.

(** The state on exit from the loop; [length x + 1] passes always
    suffice ([ess_final_total]). *)
Definition ess_final : option ess_state :=
  ess_loop (S (length x)) ess_init.

(** Lines 92-95: the value returned from the exit state. *)
Definition ess_return (st : ess_state) : ess_value * list Q :=
  let n := Np.of_nat (length x) in
  let ess := np_truediv n (auto_cor_sum st) in
  let ess := if Qlt_bool (auto_cor_sum st) 0 then PosInf else ess in
  (ess, auto_cor st).

(** [ess_1d(x, mu, var)], lines 65-95. *)
Definition ess_1d : option (ess_value * list Q) :=
  option_map ess_return ess_final.

(** The accumulated autocorrelation sum [auto_cor_sum] on exit. *)
Definition ess_accumulated : option Q :=
  option_map auto_cor_sum ess_final.

(** *** The estimator as the design document describes it

    [acorr k] is the lag-[k] autocorrelation of the series.  A run starts
    with [accumulated = - acorr 0] and [running_min = acorr 0 + acorr 1]
    at lag 1; while the sum of the current even-lag and odd-lag
    autocorrelations is positive and [lag + 2 < n], it lowers
    [running_min] to that sum, adds twice [running_min] to [accumulated]
    and computes the next two autocorrelations. *)
Definition acorr (k : nat) : Q := compute_acorr x k mu var.

Inductive geyer_run :
  nat -> Q -> Q -> list Q -> Q -> list Q -> Prop :=
| geyer_stop (l : nat) (accumulated rmin : Q) (trace : list Q) :
    ~ (0 < acorr (l - 1) + acorr l /\ (l + 2 < length x)%nat) ->
    geyer_run l accumulated rmin trace accumulated trace
| geyer_step (l : nat) (accumulated rmin : Q) (trace : list Q)
             (accumulated' : Q) (trace' : list Q) :
    0 < acorr (l - 1) + acorr l ->
    (l + 2 < length x)%nat ->
    geyer_run (l + 2)
              (accumulated + 2 * Qmin rmin (acorr (l - 1) + acorr l))
              (Qmin rmin (acorr (l - 1) + acorr l))
              (trace ++ [acorr (l + 1); acorr (l + 2)])
              accumulated' trace' ->
    geyer_run l accumulated rmin trace accumulated' trace'.

(** The described run from its initial values, to the final accumulated
    sum and trace. *)
Definition geyer_spec (accumulated : Q) (trace : list Q) : Prop :=
  geyer_run 1 (- acorr 0) (acorr 0 + acorr 1) [acorr 0; acorr 1]
            accumulated trace.

End Ess1d.

(** What the loop keeps true of its variables: [even_auto_cor] and
    [odd_auto_cor] are the autocorrelations at the lags [lag - 1] and
    [lag]. *)
Definition ess_inv (x : list Q) (mu var : Q) (st : ess_state) : Prop :=
  even_auto_cor st = acorr x mu var (lag st - 1)
  /\ odd_auto_cor st = acorr x mu var (lag st).

(** ** Exceptions *)

(** The Python exceptions the module can raise. *)
Inductive exception : Type :=
| ValueError
| IndexError
| KeyError
| ZeroDivisionError.

(** The outcome of a call: a value, a raised exception, or [OutOfFuel]
    when a bounded loop of the embedding did not reach its exit. *)
Inductive result (A : Type) : Type :=
| Ok (a : A)
| Raise (e : exception)
| OutOfFuel.

Arguments Ok {A} a.
Arguments Raise {A} e.
Arguments OutOfFuel {A}.

Definition bind {A B : Type} (r : result A) (k : A -> result B) : result B :=
  match r with
  | Ok a => k a
  | Raise e => Raise e
  | OutOfFuel => OutOfFuel
  end.

Notation "a <- r ;; k" := (bind r (fun a => k))
  (at level 61, r at next level, right associativity).

Definition of_option {A : Type} (o : option A) : result A :=
  match o with
  | Some a => Ok a
  | None => OutOfFuel
  end.

(** ** The multi-dimensional driver *)

(** A two-dimensional array is the list of its rows. *)
Definition matrix : Type := list (list Q).

(** [samples]: the table of sample arrays, by key. *)
Definition sample_table : Type := list (string * matrix).

(** [samples[key]]; a missing key raises [KeyError]. *)
Fixpoint getitem (samples : sample_table) (key : string)
  : result matrix :=
  match samples with
  | [] => Raise KeyError
  | (k, m) :: rest => if String.eqb k key then Ok m else getitem rest key
  end.

(** The number of columns of a two-dimensional array with at least one row. *)
Definition ncols (m : matrix) : nat := length (hd [] m).

(** [m[:, j]]: column [j]; an index past the last column raises
    [IndexError]. *)
Definition column (m : matrix) (j : nat) : result (list Q) :=
  if (j <? ncols m)%nat then Ok (map (fun row => nth j row 0) m)
  else Raise IndexError.

(** [m.mean()] and [m.var()]: over all the entries of the array. *)
Definition matrix_mean (m : matrix) : Q := Np.mean (concat m).
Definition matrix_var (m : matrix) : Q := Np.var (concat m).

(** [a[j] = v] on an array [a]; the callers index below [len(a)]. *)
Fixpoint setitem {A : Type} (l : list A) (j : nat) (v : A) : list A :=
  match l, j with
  | [], _ => []
  | _ :: tl, O => v :: tl
  | a :: tl, S j' => a :: setitem tl j' v
  end.

(** Lines 55-59: the loop over [j in range(d)], on the pair of [ess] and
    [auto_cor]. *)
Fixpoint mono_seq_loop (m : matrix) (mu var : Q) (js : list nat)
  (ess : list ess_value) (auto_cor : list (list Q))
  : result (list ess_value * list (list Q)) :=
  match js with
  | [] => Ok (ess, auto_cor)
  | j :: js' =>
      x <- column m j ;;
      r <- of_option (ess_1d x mu var) ;;
      let '(ess_j, auto_cor_j) := r in
      let ess := setitem ess j ess_j in
      let auto_cor := auto_cor ++ [auto_cor_j] in
      mono_seq_loop m mu var js' ess auto_cor
  end.

(** [mono_seq_ess(samples, key, normed, mu, var)], lines 19-63.  [d] is a
    Python integer, so [len(samples[key]) - 1] is computed in [Z];
    [np.zeros(d)] raises [ValueError] for a negative [d].  The value
    returned is [ess] alone. *)
Definition mono_seq_ess (samples : sample_table) (key : string)
  (mu var : option Q) : result (list ess_value) :=
  m <- getitem samples key ;;
  let mu := match mu with None => matrix_mean m | Some v => v end in
  let var := match var with None => matrix_var m | Some v => v end in
  let d := (Z.of_nat (length m) - 1)%Z in
  if (d <? 0)%Z then Raise ValueError
  else
    let ess := repeat (Fin 0) (Z.to_nat d) in
    let auto_cor := [] in
    r <- mono_seq_loop m mu var (seq 0 (Z.to_nat d)) ess auto_cor ;;
    let '(ess, auto_cor) := r in
    Ok ess.

(** What the design document asks of the driver on a matrix of shape
    [(n, d)]: one ESS value and one autocorrelation trace per column. *)
Definition driver_contract (m : matrix)
  (out : list ess_value * list (list Q)) : Prop :=
  length (fst out) = ncols m /\ length (snd out) = ncols m.

(** ** The Gelman-Rubin diagnostic *)

(** The truth value of the argument [mu] in [mu if mu else ...]: [None] and
    the number zero are false, every other number is true. *)
Definition truthy (mu : option Q) : bool :=
  match mu with
  | None => false
  | Some v => negb (Qeq_bool v 0)
  end.

(** [a / b] on two Python floats: a zero divisor raises
    [ZeroDivisionError]. *)
Definition float_div (a b : Q) : result Q :=
  if Qeq_bool b 0 then Raise ZeroDivisionError else Ok (a / b).

(** [float(k)] for a Python integer [k]. *)
Definition float_of_Z (k : Z) : Q := inject_Z k.

(** Line 178: the grand mean [theta_m = mu if mu else np.mean(theta)]. *)
Definition grand_mean (theta : list Q) (mu : option Q) : Q :=
  if truthy mu then match mu with Some v => v | None => 0 end
  else Np.mean theta.

(** Lines 170-185 of [gelman_rubin_diagnostic]: the pooled variance estimate
    [v_hat] and the within-chain variance [w]. *)
Definition gelman_rubin_variances (x : matrix) (mu : option Q)
  : result (Q * Q) :=
  let m := Z.of_nat (length x) in
  let n := Z.of_nat (ncols x) in
  if (m <? 2)%Z then Raise ValueError
  else
    let theta := map Np.mean x in
    let sigma := map Np.var x in
    let theta_m := grand_mean theta mu in
    c1 <- float_div (float_of_Z n) (float_of_Z (m - 1)) ;;
    let b := c1 * Np.sum (map (fun v => v ^ 2) (Np.sub_scalar theta theta_m)) in
    c2 <- float_div 1 (float_of_Z m) ;;
    let w := c2 * Np.sum sigma in
    c3 <- float_div (float_of_Z (n - 1)) (float_of_Z n) ;;
    c4 <- float_div (float_of_Z (m + 1)) (float_of_Z (m * n)) ;;
    let v_hat := c3 * w + c4 * b in
    Ok (v_hat, w).

(** [np.sqrt] of a rational, in the real numbers. *)
Definition np_sqrt (q : Q) : R := sqrt (Q2R q).

(** [gelman_rubin_diagnostic(x, mu)], lines 151-188.  The quotient
    [v_hat / w] is the one of the source for [w] non-zero; for [w = 0]
    NumPy gives [inf] or [nan], which the rational quotient does not
    represent. *)
Definition gelman_rubin_diagnostic (x : matrix) (mu : option Q) : result R :=
  vw <- gelman_rubin_variances x mu ;;
  let '(v_hat, w) := vw in
  let r_hat := np_sqrt (v_hat / w) in
  Ok r_hat.

(** *** The diagnostic as the design document writes it

    For [m] chains of [n] draws, with [x i j] draw [j] of chain [i]. *)
Section GelmanRubinSpec.

Variables m n : nat.
Variable x : matrix.

Definition draw (i j : nat) : Q := nth j (nth i x []) 0.

(** Sum of [f i] over [i = 0 .. k-1]. *)
Definition sum_upto (k : nat) (f : nat -> Q) : Q :=
  Np.sum (map f (seq 0 k)).

(** Per-chain empirical mean and variance over the draws. *)
Definition theta_spec (i : nat) : Q :=
  sum_upto n (draw i) / Np.of_nat n.

Definition sigma2_spec (i : nat) : Q :=
  sum_upto n (fun j => (draw i j - theta_spec i) ^ 2) / Np.of_nat n.

(** The mean of the per-chain means. *)
Definition mean_of_means_spec : Q := sum_upto m theta_spec / Np.of_nat m.

(** [B = n/(m-1) * sum_i (theta_i - theta_bar)^2]. *)
Definition B_spec (theta_bar : Q) : Q :=
  Np.of_nat n / (Np.of_nat m - 1)
  * sum_upto m (fun i => (theta_spec i - theta_bar) ^ 2).

(** [W = (1/m) * sum_i sigma_i^2]. *)
Definition W_spec : Q := (1 / Np.of_nat m) * sum_upto m sigma2_spec.

(** [V_hat = (n-1)/n * W + (m+1)/(m*n) * B]. *)
Definition V_hat_spec (theta_bar : Q) : Q :=
  (Np.of_nat n - 1) / Np.of_nat n * W_spec
  + (Np.of_nat m + 1) / (Np.of_nat m * Np.of_nat n) * B_spec theta_bar.

(** [R_hat = sqrt(V_hat / W)]. *)
Definition R_hat_spec (theta_bar : Q) : R :=
  sqrt (Q2R (V_hat_spec theta_bar / W_spec)).

End GelmanRubinSpec.

(** An array of shape [(m, n)]: [m] rows of [n] entries. *)
Definition has_shape (m n : nat) (x : matrix) : Prop :=
  length x = m /\ Forall (fun row => length row = n) x.

(** ** The batched autocorrelation-time estimator *)

(** A three-dimensional array of shape [(b, t, d)] is the list of its [b]
    chains, each a [(t, d)] matrix. *)
Definition tensor : Type := list matrix.

(** [x.shape], read off the first chain and its first row (the array has at
    least one chain and one draw). *)
Definition shape (x : tensor) : nat * nat * nat :=
  (length x, length (hd [] x), ncols (hd [] x)).

(** [b] chains of [t] draws of [d] coordinates. *)
Definition has_shape3 (b t d : nat) (x : tensor) : Prop :=
  length x = b /\ Forall (has_shape t d) x.

(** [np.mean(a, axis=0)] and [np.var(a, axis=0)] of a matrix with [d]
    columns: one value per column. *)
Definition mean_axis0 (d : nat) (a : matrix) : list Q :=
  map (fun j => Np.mean (map (fun row => nth j row 0) a)) (seq 0 d).

Definition var_axis0 (d : nat) (a : matrix) : list Q :=
  map (fun j => Np.var (map (fun row => nth j row 0) a)) (seq 0 d).

(** [p * n] for two matrices of the same shape. *)
Definition matrix_mul (p n : matrix) : matrix :=
  map (fun rows => Np.mul (fst rows) (snd rows)) (combine p n).

(** Lines 140-142: what the chain [x_i] adds to [act_] at a lag [1 <= s]:
    [y[:-s]] drops the last [s] rows of [y] and [y[s:]] the first [s].  The
    quotient by [var] is the one of the source where every entry of [var]
    is non-zero; a zero entry gives [inf] or [nan] in NumPy. *)
Definition act_chain (d s : nat) (mu var : list Q) (x_i : matrix) : list Q :=
  let y := map (fun row => Np.sub row mu) x_i in
  let p := firstn (length y - s) y in
  let n := skipn s y in
  Np.div (mean_axis0 d (matrix_mul p n)) var.

(** [auto_correlation_time(x, s, mu, var)], lines 136-144. *)
Definition auto_correlation_time (x : tensor) (s : nat) (mu var : list Q)
  : list Q :=
  let '(b, t, d) := shape x in
  let act_ := repeat 0 d in
  let act_ :=
    fold_left (fun act_ x_i => Np.add act_ (act_chain d s mu var x_i))
              x act_ in
  let act_ := map (fun v => v / Np.of_nat b) act_ in
  act_.

(** The significance threshold [0.05]. *)
Definition threshold : Q := 5 # 100.

(** [np.sum(p > 0.05)]: the number of entries above the threshold. *)
Definition count_above (p : list Q) : nat :=
  length (filter (fun v => Qgt_bool v threshold) p).

(** Lines 129-131: the loop over [j in range(0, d)] at lag [s].  Both [p]
    and [ess_] have [d] entries, so every index [j] is in range. *)
Fixpoint ess_update (js : list nat) (p : list Q) (s t : nat)
  (ess_ : list Q) : list Q :=
  match js with
  | [] => ess_
  | j :: js' =>
      let ess_ :=
        if Qgt_bool (nth j p 0) threshold
        then setitem ess_ j
               (nth j ess_ 0
                + 2 * nth j p 0 * (1 - Np.of_nat s / Np.of_nat t))
        else ess_ in
      ess_update js' p s t ess_
  end.

(** Lines 124-131: the loop over the lags, left at the [break]. *)
Fixpoint ess_lag_loop (x : tensor) (mu var : list Q) (t d : nat)
  (lags : list nat) (ess_ : list Q) : list Q :=
  match lags with
  | [] => ess_
  | s :: lags' =>
      let p := auto_correlation_time x s mu var in
      if (count_above p =? 0)%nat then ess_
      else ess_lag_loop x mu var t d lags' (ess_update (seq 0 d) p s t ess_)
  end.

(** Lines 119-122: the mean and the variance used, either supplied or
    computed over the batch and time axes. *)
Definition mean_used (x : tensor) (mu : option (list Q)) : list Q :=
  let '(b, t, d) := shape x in
  match mu with
  | None => mean_axis0 d (concat x)
  | Some v => v
  end.

Definition var_used (x : tensor) (var : option (list Q)) : list Q :=
  let '(b, t, d) := shape x in
  match var with
  | None => var_axis0 d (concat x)
  | Some v => v
  end.

(** [effective_sample_size(x, mu, var)], lines 108-134. *)
Definition effective_sample_size (x : tensor) (mu var : option (list Q))
  : list Q :=
  let '(b, t, d) := shape x in
  let mu := mean_used x mu in
  let var := var_used x var in
  let ess_ := repeat 1 d in
  let ess_ := ess_lag_loop x mu var t d (seq 1 (t - 1)) ess_ in
  map (fun e => Np.of_nat t / e) ess_.


(** *** The batched estimator as the design document describes it *)
Section BatchedSpec.

Variables b t d : nat.
Variable x : tensor.
Variables mu var : list Q.

(** Draw [i] of chain [c], coordinate [j], centered. *)
Definition centered (c i j : nat) : Q :=
  nth j (nth i (nth c x []) []) 0 - nth j mu 0.

(** The mean product of the centered values separated by lag [s], in
    chain [c]. *)
Definition mean_product (s c j : nat) : Q :=
  sum_upto (t - s) (fun i => centered c i j * centered c (i + s) j)
  / Np.of_nat (t - s).

(** The batch-averaged autocorrelation at lag [s]: the average over the
    chains of the mean product, divided by the variance. *)
Definition autocorr_spec (s j : nat) : Q :=
  sum_upto b (fun c => mean_product s c j) / Np.of_nat b / nth j var 0.

(** Some coordinate's autocorrelation exceeds the threshold at lag [s]. *)
Definition significant (s : nat) : bool :=
  existsb (fun j => Qgt_bool (autocorr_spec s j) threshold) (seq 0 d).

(** The lags before the first one that is not significant. *)
Fixpoint lags_before_stop (lags : list nat) : list nat :=
  match lags with
  | [] => []
  | s :: lags' =>
      if significant s then s :: lags_before_stop lags' else []
  end.

(** What lag [s] adds to the accumulator of coordinate [j]. *)
Definition increment (s j : nat) : Q :=
  if Qgt_bool (autocorr_spec s j) threshold
  then 2 * autocorr_spec s j * (1 - Np.of_nat s / Np.of_nat t)
  else 0.

(** The accumulator of coordinate [j]: one, plus the increments of the
    lags [1 .. t-1] up to the early stop. *)
Definition accumulator_spec (j : nat) : Q :=
  1 + Np.sum (map (fun s => increment s j)
                  (lags_before_stop (seq 1 (t - 1)))).

(** The value returned: [t / accumulator], coordinate by coordinate. *)
Definition ess_spec : list Q :=
  map (fun j => Np.of_nat t / accumulator_spec j) (seq 0 d).

End BatchedSpec.

(** The mean and the variance over the batch and time axes, as the design
    document has them when none is supplied: over all the [b * t] draws of
    coordinate [j]. *)
Definition batch_mean_spec (b t : nat) (x : tensor) (j : nat) : Q :=
  sum_upto b (fun c =>
    sum_upto t (fun i => nth j (nth i (nth c x []) []) 0))
  / Np.of_nat (b * t).

Definition batch_var_spec (b t : nat) (x : tensor) (j : nat) : Q :=
  sum_upto b (fun c =>
    sum_upto t (fun i =>
      (nth j (nth i (nth c x []) []) 0 - batch_mean_spec b t x j) ^ 2))
  / Np.of_nat (b * t).

(** The mean and the variance the estimator is described to use: the
    supplied one, else the one over the batch and time axes. *)
Definition mean_spec (b t d : nat) (x : tensor) (mu : option (list Q))
  : list Q :=
  match mu with
  | Some v => v
  | None => map (batch_mean_spec b t x) (seq 0 d)
  end.

Definition var_spec (b t d : nat) (x : tensor) (var : option (list Q))
  : list Q :=
  match var with
  | Some v => v
  | None => map (batch_var_spec b t x) (seq 0 d)
  end.

(** ** Heat maps of discrete-state samples and their distance to a
    reference *)

(** [np.zeros((r, c))]: a negative dimension raises [ValueError]. *)
Definition np_zeros2 (r c : Z) : result matrix :=
  if ((r <? 0) || (c <? 0))%Z then Raise ValueError
  else Ok (repeat (repeat 0 (Z.to_nat c)) (Z.to_nat r)).

(** [a[r, i] = v] for non-negative [r] and [i]; an index past the end of
    either axis raises [IndexError]. *)
Definition setitem2 (a : matrix) (r i : nat) (v : Q) : result matrix :=
  if ((r <? length a) && (i <? length (nth r a [])))%nat
  then Ok (setitem a r (setitem (nth r a []) i v))
  else Raise IndexError.

(** [np.mean(col == s)]: the fraction of the entries of [col] equal to
    [s]. *)
Definition mean_eq (col : list Q) (s : Q) : Q :=
  Np.mean (map (fun v => if Qeq_bool v s then 1 else 0) col).

(** Lines 297-300 of [samples_heatmap]: the loop over [i in range(T+1)].
    Each right-hand side is evaluated before its store. *)
Fixpoint heatmap_loop (samples : matrix) (idx : list nat) (heatmap : matrix)
  : result matrix :=
  match idx with
  | [] => Ok heatmap
  | i :: idx' =>
      c0 <- column samples i ;;
      heatmap <- setitem2 heatmap 0 i (mean_eq c0 0) ;;
      c1 <- column samples i ;;
      heatmap <- setitem2 heatmap 1 i (mean_eq c1 1) ;;
      c2 <- column samples i ;;
      heatmap <- setitem2 heatmap 2 i (mean_eq c2 2) ;;
      heatmap_loop samples idx' heatmap
  end.

(** [samples_heatmap(num_state, T, samples)], lines 295-301, for an array
    [samples] with at least one row. *)
Definition samples_heatmap (num_state T : Z) (samples : matrix)
  : result matrix :=
  heatmap <- np_zeros2 num_state (T + 1) ;;
  heatmap_loop samples (seq 0 (Z.to_nat (T + 1))) heatmap.

(** [a - b] for two matrices of the same shape. *)
Definition matrix_sub (a b : matrix) : matrix :=
  map (fun rows => Np.sub (fst rows) (snd rows)) (combine a b).

(** [l2_norm(samples_post, true_post)], lines 303-305, for two matrices of
    the same shape: [np.sum] adds up all the entries. *)
Definition l2_norm (samples_post true_post : matrix) : Q :=
  let result :=
    Np.sum (map (fun v => v ^ 2) (concat (matrix_sub samples_post true_post)))
  in
  result.

(** [int(a / b)] for two Python integers: the true quotient truncated
    towards zero; a zero divisor raises [ZeroDivisionError].  Python rounds
    the quotient to a [float64] before [int] truncates it; for operands
    below [2 ^ 53] in absolute value the rounding never reaches the next
    integer and the result is the exact truncated quotient written here.
    The theorems on [multi_l2norm_hmm] carry that bound. *)
Definition int_truediv (a b : Z) : result Z :=
  if (b =? 0)%Z then Raise ZeroDivisionError else Ok (Z.quot a b).

(** [a[:k, :]] for a Python integer [k]: the first [k] rows, or all but the
    last [-k] rows when [k] is negative. *)
Definition rows_upto (a : matrix) (k : Z) : matrix :=
  if (k <? 0)%Z then firstn (Z.to_nat (Z.of_nat (length a) + k)) a
  else firstn (Z.to_nat k) a.

(** [a.transpose()] for a matrix with at least one row. *)
Definition transpose (a : matrix) : matrix :=
  map (fun j => map (fun row => nth j row 0) a) (seq 0 (ncols a)).

(** Lines 310-312 of [multi_l2norm_hmm]: the loop over the groups.  The
    argument [l2_norm] of the function is the parameter [l2_norm_arg]. *)
Fixpoint multi_l2norm_loop (each_num : Z)
  (l2_norm_arg : matrix -> matrix -> Q) (true_post raw_samples : matrix)
  (num_state T : Z) (idx : list nat) (l2norm_result : list Q)
  : result (list Q) :=
  match idx with
  | [] => Ok l2norm_result
  | i :: idx' =>
      heatmap <- samples_heatmap num_state T
                   (rows_upto raw_samples (each_num * (Z.of_nat i + 1))) ;;
      let l2norm_result :=
        setitem l2norm_result i (l2_norm_arg heatmap (transpose true_post)) in
      multi_l2norm_loop each_num l2_norm_arg true_post raw_samples
                        num_state T idx' l2norm_result
  end.

(** [multi_l2norm_hmm(each_num, total_num, l2_norm, true_post, raw_samples,
    num_state, T)], lines 307-313. *)
Definition multi_l2norm_hmm (each_num total_num : Z)
  (l2_norm_arg : matrix -> matrix -> Q) (true_post raw_samples : matrix)
  (num_state T : Z) : result (list Q) :=
  group_num <- int_truediv total_num each_num ;;
  if (group_num <? 0)%Z then Raise ValueError
  else
    let l2norm_result := repeat 0 (Z.to_nat group_num) in
    multi_l2norm_loop each_num l2_norm_arg true_post raw_samples num_state T
                      (seq 0 (Z.to_nat group_num)) l2norm_result.

(** ** Loading the chains from disk *)

(** A Python [dict] with integer keys, in insertion order. *)
Definition dict (V : Type) : Type := list (nat * V).

(** [d[k] = v]: replaces the value of an existing key, appends a new one. *)
Fixpoint dict_set {V : Type} (k : nat) (v : V) (d : dict V) : dict V :=
  match d with
  | [] => [(k, v)]
  | (k', v') :: d' =>
      if (k' =? k)%nat then (k, v) :: d' else (k', v') :: dict_set k v d'
  end.

(** [d.get(k)]: [None] for an absent key. *)
Fixpoint dict_get {V : Type} (k : nat) (d : dict V) : option V :=
  match d with
  | [] => None
  | (k', v') :: d' => if (k' =? k)%nat then Some v' else dict_get k d'
  end.

Section LoadData.

(** The tables of samples, and the files on disk: [fs path] is the table
    [pd.read_csv] reads at [path], [None] when [Path(path).exists()] is
    false. *)
Variable dataframe : Type.
Variable fs : string -> option dataframe.

(** [str(k)] for a non-negative integer. *)
Definition decimal (k : nat) : string :=
  NilZero.string_of_uint (Nat.to_uint k).

(** Lines 275-278: the file of chain [i]. *)
Definition samples_file_dir (PATH inference : string)
  (include_burnin_samples : bool) (i : nat) : string :=
  if include_burnin_samples
  then (PATH ++ "/" ++ inference ++ "_chain_" ++ decimal (i + 1)
        ++ "_all_samples.csv")%string
  else (PATH ++ "/" ++ inference ++ "_chain_" ++ decimal (i + 1)
        ++ "_samples_after_burnin.csv")%string.

(** The table in the file of chain [i], [None] when there is no file. *)
Definition chain_file (PATH inference : string)
  (include_burnin_samples : bool) (i : nat) : option dataframe :=
  fs (samples_file_dir PATH inference include_burnin_samples i).

(** Lines 274-282: the loop over [i in range(n_chain)].  A value [None] of
    the dictionary is the Python [None]. *)
Fixpoint load_data_loop (PATH inference : string)
  (include_burnin_samples : bool) (idx : list nat)
  (all_stats : dict (option dataframe)) : dict (option dataframe) :=
  match idx with
  | [] => all_stats
  | i :: idx' =>
      let samples_file_dir :=
        samples_file_dir PATH inference include_burnin_samples i in
      let all_stats :=
        match fs samples_file_dir with
        | Some df => dict_set i (Some df) all_stats
        | None => dict_set (i + 1) None all_stats
        end in
      load_data_loop PATH inference include_burnin_samples idx' all_stats
  end.

(** [load_data(n_chain, PATH, inference, include_burnin_samples)],
    lines 265-283. *)
Definition load_data (n_chain : Z) (PATH inference : string)
  (include_burnin_samples : bool) : dict (option dataframe) :=
  let all_stats := [] in
  load_data_loop PATH inference include_burnin_samples
                 (seq 0 (Z.to_nat n_chain)) all_stats.

End LoadData.

(** [a[r, i]] for indices in range. *)
Definition entry (a : matrix) (r i : nat) : Q := nth i (nth r a []) 0.

(** The states of the discrete chain the heat map counts. *)
Definition is_state (v : Q) : Prop := v == 0 \/ v == 1 \/ v == 2.
(** ** Basic facts about the primitives *)

Lemma length_mul (a b : list Q) :
  length (Np.mul a b) = Nat.min (length a) (length b).
Proof. unfold Np.mul. now rewrite length_map, length_combine. Qed.

Lemma length_sub_scalar (a : list Q) (c : Q) :
  length (Np.sub_scalar a c) = length a.
Proof. apply length_map. Qed.

Lemma nth_sub_scalar (a : list Q) (c : Q) (i : nat) :
  (i < length a)%nat ->
  nth i (Np.sub_scalar a c) 0 = nth i a 0 - c.
Proof.
  intros Hi. unfold Np.sub_scalar.
  rewrite (nth_indep _ 0 ((fun v => v - c) 0)) by now rewrite length_map.
  apply (map_nth (fun v => v - c)).
Qed.

Lemma nth_mul (a b : list Q) (i : nat) :
  length a = length b -> (i < length a)%nat ->
  nth i (Np.mul a b) 0 = nth i a 0 * nth i b 0.
Proof.
  intros Hab Ha. unfold Np.mul.
  rewrite (nth_indep _ 0 ((fun p => fst p * snd p) (0, 0)))
    by (rewrite length_map, length_combine; lia).
  rewrite (map_nth (fun p => fst p * snd p)).
  now rewrite combine_nth by assumption.
Qed.

(** The lagged products, position by position. *)
Lemma lagged_products (x : list Q) (k : nat) (mu : Q) :
  (k <= length x)%nat ->
  Np.mul (Np.sub_scalar (firstn (length x - k) x) mu)
         (Np.sub_scalar (skipn k x) mu)
  = map (fun i => (nth i x 0 - mu) * (nth (i + k) x 0 - mu))
        (seq 0 (length x - k)).
Proof.
  intros Hk.
  assert (Hf : length (firstn (length x - k) x) = (length x - k)%nat)
    by (rewrite length_firstn; lia).
  assert (Hs : length (skipn k x) = (length x - k)%nat)
    by apply length_skipn.
  apply (nth_ext _ _ 0 0).
  - rewrite length_mul, !length_sub_scalar, Hf, Hs, length_map, length_seq.
    lia.
  - intros i Hi.
    rewrite length_mul, !length_sub_scalar, Hf, Hs in Hi.
    assert (Hi' : (i < length x - k)%nat) by lia.
    rewrite nth_mul by (rewrite !length_sub_scalar; lia).
    rewrite !nth_sub_scalar by lia.
    rewrite nth_firstn, nth_skipn.
    replace (i <? length x - k)%nat with true
      by (symmetry; apply Nat.ltb_lt; lia).
    set (f := fun j => (nth j x 0 - mu) * (nth (j + k) x 0 - mu)).
    rewrite (nth_indep (map f (seq 0 (length x - k))) 0 (f 0%nat))
      by (rewrite length_map, length_seq; lia).
    rewrite (map_nth f), seq_nth by lia.
    unfold f. simpl. now rewrite (Nat.add_comm k i).
Qed.

(** C9: for a series of length n, a lag 0 <= k < n and a non-zero variance,
    [compute_acorr] is the mean over i = 0 .. n-k-1 of
    (x[i] - mu) * (x[i+k] - mu), divided by var, times (n - k) / n. *)
Theorem compute_acorr_spec (x : list Q) (k : nat) (mu var : Q) :
  (k < length x)%nat -> ~ var == 0 ->
  compute_acorr x k mu var == acorr_spec x k mu var.
Proof.
  intros Hk Hvar. unfold compute_acorr, acorr_spec.
  rewrite lagged_products by lia.
  unfold Np.mean. rewrite length_map, length_seq.
  unfold Qdiv. ring.
Qed.

Lemma compute_acorr_spec_witness :
  (1 < length [1; 2; 4])%nat /\ ~ 2 == 0 /\
  compute_acorr [1; 2; 4] 1 2 2 == acorr_spec [1; 2; 4] 1 2 2.
Proof.
  split; [simpl; lia|]. split; [discriminate|].
  apply compute_acorr_spec; [simpl; lia | discriminate].
Defined.


(** ** Sums of lists of rationals *)

Lemma sum_map_Qeq {A : Type} (f g : A -> Q) (l : list A) :
  (forall a, In a l -> f a == g a) ->
  Np.sum (map f l) == Np.sum (map g l).
Proof.
  induction l as [|a l IH]; intros H; simpl; [reflexivity|].
  rewrite (H a) by now left.
  rewrite IH; [reflexivity|]. intros a' Ha'. apply H. now right.
Qed.

Lemma sum_app (l1 l2 : list Q) :
  Np.sum (l1 ++ l2) == Np.sum l1 + Np.sum l2.
Proof.
  induction l1 as [|v l1 IH]; simpl; [ring|].
  fold (Np.sum (l1 ++ l2)). fold (Np.sum l1). rewrite IH. ring.
Qed.

(** ** The monotone-sequence estimator: termination and behaviour *)

Lemma Qgt_bool_iff (a b : Q) : Qgt_bool a b = true <-> b < a.
Proof.
  unfold Qgt_bool. rewrite negb_true_iff.
  destruct (Qle_bool a b) eqn:E.
  - apply Qle_bool_iff in E. split; [discriminate | intros H].
    exfalso. apply (Qlt_irrefl b). now apply Qlt_le_trans with a.
  - split; [intros _ | reflexivity].
    apply Qnot_le_lt. intros H. apply Qle_bool_iff in H. congruence.
Qed.

Lemma Qlt_bool_iff (a b : Q) : Qlt_bool a b = true <-> a < b.
Proof. apply Qgt_bool_iff. Qed.

Lemma ess_cond_iff (x : list Q) (mu var : Q) (st : ess_state) :
  ess_cond x st = true <->
  0 < even_auto_cor st + odd_auto_cor st /\ (lag st + 2 < length x)%nat.
Proof.
  unfold ess_cond. now rewrite andb_true_iff, Qgt_bool_iff, Nat.ltb_lt.
Qed.

(** Every pass raises [lag] by two and needs [lag + 2 < n]: the loop ends. *)
Lemma ess_loop_terminates (x : list Q) (mu var : Q) :
  forall (fuel : nat) (st : ess_state),
    (1 <= fuel)%nat -> (length x <= lag st + 2 * fuel)%nat ->
    exists st', ess_loop x mu var fuel st = Some st'.
Proof.
  induction fuel as [|fuel IH]; intros st Hfuel Hlen; [lia|].
  simpl. destruct (ess_cond x st) eqn:Hc.
  - apply (ess_cond_iff x mu var) in Hc. destruct Hc as [_ Hlag].
    apply IH; simpl; lia.
  - now exists st.
Qed.

Lemma ess_final_total (x : list Q) (mu var : Q) :
  exists st, ess_final x mu var = Some st.
Proof.
  unfold ess_final. apply ess_loop_terminates; simpl; lia.
Qed.

Lemma ess_inv_init (x : list Q) (mu var : Q) :
  ess_inv x mu var (ess_init x mu var).
Proof. split; reflexivity. Qed.

Lemma ess_inv_body (x : list Q) (mu var : Q) (st : ess_state) :
  ess_inv x mu var (ess_body x mu var st).
Proof.
  split; simpl; unfold acorr; f_equal; lia.
Qed.

(** The loop of the source follows the described run, step for step. *)
Lemma ess_loop_geyer (x : list Q) (mu var : Q) :
  forall (fuel : nat) (st st' : ess_state) (accumulated : Q),
    ess_inv x mu var st ->
    ess_loop x mu var fuel st = Some st' ->
    accumulated == auto_cor_sum st ->
    exists accumulated',
      geyer_run x mu var (lag st) accumulated (running_min st) (auto_cor st)
                accumulated' (auto_cor st')
      /\ accumulated' == auto_cor_sum st'.
Proof.
  induction fuel as [|fuel IH]; intros st st' acc [He Ho] Hrun Hacc;
    [discriminate|].
  simpl in Hrun. destruct (ess_cond x st) eqn:Hc.
  - apply (ess_cond_iff x mu var) in Hc. destruct Hc as [Hpos Hlag].
    rewrite He, Ho in Hpos.
    set (rmin := Qmin (running_min st)
                      (acorr x mu var (lag st - 1) + acorr x mu var (lag st))).
    destruct (IH (ess_body x mu var st) st' (acc + 2 * rmin)
                 (ess_inv_body x mu var st) Hrun) as [acc' [Hr Hacc']].
    + simpl. rewrite He, Ho. fold rmin. now rewrite Hacc.
    + exists acc'. split; [|exact Hacc'].
      apply geyer_step; [exact Hpos | exact Hlag |].
      simpl in Hr. rewrite He, Ho in Hr. fold rmin in Hr.
      rewrite <- app_assoc in Hr. simpl in Hr.
      unfold acorr at 3 4.
      replace (lag st + 2)%nat with (lag st + 1 + 1)%nat by lia.
      exact Hr.
  - injection Hrun as <-. exists acc. split; [|exact Hacc].
    apply geyer_stop. intros [Hpos Hlag].
    rewrite <- He, <- Ho in Hpos.
    assert (ess_cond x st = true) by now apply (ess_cond_iff x mu var).
    congruence.
Qed.

(** A described run has one outcome. *)
Lemma geyer_run_deterministic (x : list Q) (mu var : Q) :
  forall l acc rmin tr acc1 tr1,
    geyer_run x mu var l acc rmin tr acc1 tr1 ->
    forall acc2 tr2,
      geyer_run x mu var l acc rmin tr acc2 tr2 ->
      acc1 = acc2 /\ tr1 = tr2.
Proof.
  induction 1 as [l acc rmin tr Hstop | l acc rmin tr acc1 tr1 Hpos Hlag _ IH];
    intros acc2 tr2 H2; inversion H2; subst.
  - now split.
  - exfalso. apply Hstop. now split.
  - exfalso. match goal with H : ~ _ |- _ => apply H end. now split.
  - now apply IH.
Qed.

(** The trace of a described run lists the autocorrelations in lag order. *)
Lemma geyer_run_trace (x : list Q) (mu var : Q) :
  forall l acc rmin tr acc' tr',
    geyer_run x mu var l acc rmin tr acc' tr' ->
    tr = map (acorr x mu var) (seq 0 (l + 1)) ->
    tr' = map (acorr x mu var) (seq 0 (length tr')).
Proof.
  induction 1 as [l acc rmin tr _ | l acc rmin tr acc' tr' _ _ _ IH];
    intros Htr.
  - rewrite Htr at 1. now rewrite Htr, length_map, length_seq.
  - apply IH. rewrite Htr.
    replace (l + 2 + 1)%nat with (S (S (l + 1))) by lia.
    rewrite !seq_S, !map_app, <- app_assoc. simpl.
    f_equal. now replace (S (l + 1)) with (l + 2)%nat by lia.
Qed.

(** C1: for a series of length n >= 3 and a non-zero variance, [ess_1d]
    runs as described: from accumulated = -acorr(0) and
    running_min = acorr(0) + acorr(1) it repeats, while even + odd > 0 and
    lag + 2 < n, the update of running_min and accumulated and the next two
    autocorrelations.  The sum the source accumulates is the one of the
    described run; the trace returned lists the autocorrelations in lag
    order; and when accumulated >= 0 the value returned is
    ESS = n / accumulated: that quotient of rationals for accumulated > 0,
    and NumPy's [n / 0.0 = inf] for accumulated = 0. *)
Theorem ess_1d_follows_geyer_run (x : list Q) (mu var : Q) :
  (3 <= length x)%nat -> ~ var == 0 ->
  (exists accumulated trace, geyer_spec x mu var accumulated trace)
  /\ forall accumulated trace,
       geyer_spec x mu var accumulated trace ->
       exists ess auto_cor_sum,
         ess_1d x mu var = Some (ess, trace)
         /\ ess_accumulated x mu var = Some auto_cor_sum
         /\ auto_cor_sum == accumulated
         /\ (0 < accumulated ->
             exists q, ess = Fin q
                       /\ q == Np.of_nat (length x) / accumulated)
         /\ (accumulated == 0 -> ess = PosInf)
         /\ trace = map (acorr x mu var) (seq 0 (length trace)).
Proof.
  intros _ _.
  destruct (ess_final_total x mu var) as [st Hst].
  assert (Hinit : - acorr x mu var 0 == auto_cor_sum (ess_init x mu var))
    by (unfold acorr; simpl; ring).
  destruct (ess_loop_geyer x mu var _ _ _ _ (ess_inv_init x mu var) Hst Hinit)
    as [acc [Hrun Hacc]].
  split; [now exists acc, (auto_cor st)|].
  intros acc2 tr2 Hspec.
  destruct (geyer_run_deterministic _ _ _ _ _ _ _ _ _ Hrun _ _ Hspec)
    as [<- <-].
  unfold ess_1d, ess_accumulated. rewrite Hst. simpl. unfold ess_return.
  do 2 eexists. split; [reflexivity|]. split; [reflexivity|].
  split; [now symmetry|].
  assert (Hnl : 0 <= acc -> Qlt_bool (auto_cor_sum st) 0 = false).
  { intros Hge. destruct (Qlt_bool (auto_cor_sum st) 0) eqn:E; [|reflexivity].
    apply Qlt_bool_iff in E. rewrite <- Hacc in E.
    exfalso. apply (Qlt_irrefl 0). now apply Qle_lt_trans with acc. }
  split; [|split].
  - intros Hpos. rewrite Hnl by now apply Qlt_le_weak.
    unfold np_truediv.
    assert (Hnz : Qeq_bool (auto_cor_sum st) 0 = false).
    { destruct (Qeq_bool (auto_cor_sum st) 0) eqn:E; [|reflexivity].
      apply Qeq_bool_eq in E. rewrite Hacc, E in Hpos.
      exfalso. revert Hpos. apply Qlt_irrefl. }
    rewrite Hnz. eexists. split; [reflexivity|]. now rewrite Hacc.
  - intros Hz. rewrite Hnl by (rewrite Hz; apply Qle_refl).
    unfold np_truediv.
    assert (Hz' : auto_cor_sum st == 0) by now rewrite <- Hacc.
    now rewrite (Qeq_eq_bool _ _ Hz').
  - now apply (geyer_run_trace x mu var _ _ _ _ _ _ Hrun).
Qed.

Lemma ess_1d_follows_geyer_run_witness :
  let x := [1; 2; 3; 4; 5; 6; 7; 8] in
  let mu := 9 # 2 in
  let var := 21 # 4 in
  (exists accumulated trace, geyer_spec x mu var accumulated trace)
  /\ forall accumulated trace,
       geyer_spec x mu var accumulated trace ->
       exists ess auto_cor_sum,
         ess_1d x mu var = Some (ess, trace)
         /\ ess_accumulated x mu var = Some auto_cor_sum
         /\ auto_cor_sum == accumulated
         /\ (0 < accumulated ->
             exists q, ess = Fin q
                       /\ q == Np.of_nat (length x) / accumulated)
         /\ (accumulated == 0 -> ess = PosInf)
         /\ trace = map (acorr x mu var) (seq 0 (length trace)).
Proof.
  intros x mu var.
  apply ess_1d_follows_geyer_run; [simpl; lia | discriminate].
Defined.

(** C6: when the accumulated autocorrelation sum of [ess_1d] ends up
    strictly negative the returned ESS is positive infinity, and [ess_1d]
    never returns a negative ESS. *)
Theorem ess_1d_never_negative (x : list Q) (mu var : Q) :
  (2 <= length x)%nat -> ~ var == 0 ->
  exists accumulated ess trace,
    ess_accumulated x mu var = Some accumulated
    /\ ess_1d x mu var = Some (ess, trace)
    /\ (accumulated < 0 -> ess = PosInf)
    /\ ~ ess_negative ess.
Proof.
  intros _ _.
  destruct (ess_final_total x mu var) as [st Hst].
  exists (auto_cor_sum st). unfold ess_accumulated, ess_1d. rewrite Hst.
  simpl. unfold ess_return. do 2 eexists.
  split; [reflexivity|]. split; [reflexivity|].
  destruct (Qlt_bool (auto_cor_sum st) 0) eqn:E.
  - split; [reflexivity | intros []].
  - split.
    + intros Hneg. apply Qlt_bool_iff in Hneg. congruence.
    + unfold np_truediv.
      destruct (Qeq_bool (auto_cor_sum st) 0) eqn:Ez; simpl; [tauto|].
      apply Qeq_bool_neq in Ez.
      assert (Hpos : 0 < auto_cor_sum st).
      { destruct (Qlt_le_dec 0 (auto_cor_sum st)) as [H|H]; [exact H|].
        apply Qle_lt_or_eq in H. destruct H as [H|H].
        - apply Qlt_bool_iff in H. congruence.
        - contradiction. }
      apply Qle_not_lt. apply Qle_shift_div_l; [exact Hpos|].
      rewrite Qmult_0_l. unfold Np.of_nat.
      change 0 with (inject_Z 0). rewrite <- Zle_Qle. lia.
Qed.

Lemma ess_1d_never_negative_witness :
  exists accumulated ess trace,
    ess_accumulated [1; 2; 1] (4 # 3) (2 # 9) = Some accumulated
    /\ ess_1d [1; 2; 1] (4 # 3) (2 # 9) = Some (ess, trace)
    /\ (accumulated < 0 -> ess = PosInf)
    /\ ~ ess_negative ess.
Proof.
  apply ess_1d_never_negative; [simpl; lia | discriminate].
Defined.

(** ** The multi-dimensional driver counts rows *)

Lemma length_setitem {A : Type} (l : list A) (j : nat) (v : A) :
  length (setitem l j v) = length l.
Proof.
  revert j. induction l as [|a l IH]; intros [|j]; simpl; auto.
Qed.

Lemma nth_setitem_eq {A : Type} (l : list A) (j : nat) (v d : A) :
  (j < length l)%nat -> nth j (setitem l j v) d = v.
Proof.
  revert j. induction l as [|a l IH]; intros [|j] Hj; simpl in *;
    try lia; auto. apply IH. lia.
Qed.

Lemma nth_setitem_neq {A : Type} (l : list A) (j k : nat) (v d : A) :
  j <> k -> nth k (setitem l j v) d = nth k l d.
Proof.
  revert j k. induction l as [|a l IH]; intros [|j] [|k] Hjk; simpl;
    try reflexivity; try lia. apply IH. lia.
Qed.

Lemma Forall_setitem {A : Type} (P : A -> Prop) (l : list A) (j : nat)
  (v : A) :
  Forall P l -> ((j < length l)%nat -> P v) -> Forall P (setitem l j v).
Proof.
  revert j. induction l as [|a l IH]; intros [|j] Hl Hv; simpl; auto.
  - inversion Hl; subst. constructor; [apply Hv; simpl; lia | assumption].
  - inversion Hl; subst. constructor; [assumption|].
    apply IH; [assumption|]. intros Hj. apply Hv. simpl. lia.
Qed.

(** The loop over the columns keeps the length of [ess] and adds one trace
    per pass. *)
Lemma mono_seq_loop_lengths (m : matrix) (mu var : Q) :
  forall (js : list nat) (ess : list ess_value) (auto_cor : list (list Q))
         (ess' : list ess_value) (auto_cor' : list (list Q)),
    mono_seq_loop m mu var js ess auto_cor = Ok (ess', auto_cor') ->
    length ess' = length ess
    /\ length auto_cor' = (length auto_cor + length js)%nat.
Proof.
  induction js as [|j js IH]; intros ess ac ess' ac' H; simpl in H.
  - injection H as <- <-. split; [reflexivity | simpl; lia].
  - destruct (column m j) as [x| |]; simpl in H; try discriminate.
    destruct (ess_1d x mu var) as [[ess_j ac_j]|]; simpl in H;
      try discriminate.
    apply IH in H. destruct H as [H1 H2].
    rewrite length_setitem in H1. rewrite length_app in H2. simpl in H2.
    split; [exact H1 | simpl; lia].
Qed.

(** Whatever the number of columns, the array returned has one entry per
    row but one. *)
Lemma mono_seq_ess_length (samples : sample_table) (key : string)
  (mu var : option Q) (ess : list ess_value) :
  mono_seq_ess samples key mu var = Ok ess ->
  exists m, getitem samples key = Ok m
            /\ length ess = (length m - 1)%nat.
Proof.
  unfold mono_seq_ess. intros H.
  destruct (getitem samples key) as [m| |]; simpl in H; try discriminate.
  exists m. split; [reflexivity|].
  destruct (Z.of_nat (length m) - 1 <? 0)%Z eqn:Hd; [discriminate|].
  apply Z.ltb_ge in Hd.
  match type of H with
  | bind ?r _ = _ => destruct r as [[ess' ac']| |] eqn:Hloop
  end; simpl in H; try discriminate.
  injection H as <-.
  apply mono_seq_loop_lengths in Hloop. destruct Hloop as [Hlen _].
  rewrite Hlen, repeat_length. lia.
Qed.

(** C2: on a matrix of three draws of three coordinates [mono_seq_ess]
    returns two ESS values, one per row but one, and no autocorrelation
    trace; on four draws of two coordinates it asks for a third column and
    raises [IndexError].  The driver contract (one ESS value and one trace
    per coordinate) is met by neither. *)
Theorem mono_seq_ess_counts_rows :
  let m33 := [[1; 2; 3]; [2; 4; 1]; [3; 1; 2]] in
  let m42 := [[1; 2]; [2; 1]; [3; 3]; [4; 1]] in
  ncols m33 = 3%nat
  /\ mono_seq_ess [("x"%string, m33)] "x"%string None None
     = Ok [PosInf; PosInf]
  /\ (forall traces, ~ driver_contract m33 ([PosInf; PosInf], traces))
  /\ ncols m42 = 2%nat
  /\ mono_seq_ess [("x"%string, m42)] "x"%string None None
     = Raise IndexError.
Proof.
  intros m33 m42. split; [reflexivity|]. split; [now vm_compute|].
  split; [|split; [reflexivity | now vm_compute]].
  intros traces [H _]. simpl in H. discriminate.
Qed.

(** ** The Gelman-Rubin diagnostic: errors and formula *)

Lemma float_div_ok (a b : Q) : ~ b == 0 -> float_div a b = Ok (a / b).
Proof.
  intros Hb. unfold float_div.
  destruct (Qeq_bool b 0) eqn:E; [|reflexivity].
  apply Qeq_bool_eq in E. contradiction.
Qed.

Lemma float_div_cases (a b : Q) :
  float_div a b = Ok (a / b) \/ float_div a b = Raise ZeroDivisionError.
Proof. unfold float_div. destruct (Qeq_bool b 0); auto. Qed.

Lemma float_of_Z_nonzero (k : Z) : k <> 0%Z -> ~ float_of_Z k == 0.
Proof.
  intros Hk H. apply Hk. unfold float_of_Z, inject_Z, Qeq in H.
  simpl in H. lia.
Qed.

Lemma inject_Z_minus (a b : Z) : inject_Z (a - b) = inject_Z a - inject_Z b.
Proof. unfold Z.sub. now rewrite inject_Z_plus, inject_Z_opp. Qed.

Lemma of_nat_nonzero (k : nat) : (1 <= k)%nat -> ~ Np.of_nat k == 0.
Proof. intros Hk. apply float_of_Z_nonzero. lia. Qed.

Lemma of_nat_pos (k : nat) : (1 <= k)%nat -> 0 < Np.of_nat k.
Proof.
  intros Hk. unfold Np.of_nat. change 0 with (inject_Z 0).
  rewrite <- Zlt_Qlt. lia.
Qed.

Lemma of_nat_nonneg (k : nat) : 0 <= Np.of_nat k.
Proof.
  unfold Np.of_nat. change 0 with (inject_Z 0). rewrite <- Zle_Qle. lia.
Qed.

(** A list is the list of its entries by index. *)
Lemma list_by_index (l : list Q) :
  l = map (fun i => nth i l 0) (seq 0 (length l)).
Proof.
  apply (nth_ext _ _ 0 0).
  - now rewrite length_map, length_seq.
  - intros i Hi.
    set (f := fun i => nth i l 0).
    rewrite (nth_indep (map f _) 0 (f 0%nat))
      by now rewrite length_map, length_seq.
    now rewrite (map_nth f), seq_nth.
Qed.

Lemma matrix_by_index (f : list Q -> Q) (x : matrix) :
  map f x = map (fun i => f (nth i x [])) (seq 0 (length x)).
Proof.
  apply (nth_ext _ _ (f []) (f [])).
  - now rewrite !length_map, length_seq.
  - intros i Hi. rewrite length_map in Hi.
    rewrite (map_nth f).
    set (g := fun i => f (nth i x [])).
    rewrite (nth_indep (map g _) (f []) (g 0%nat))
      by now rewrite length_map, length_seq.
    now rewrite (map_nth g), seq_nth.
Qed.

Lemma has_shape_row (m n : nat) (x : matrix) (i : nat) :
  has_shape m n x -> (i < m)%nat -> length (nth i x []) = n.
Proof.
  intros [Hm Hrows] Hi. rewrite Forall_forall in Hrows.
  apply Hrows, nth_In. lia.
Qed.

Lemma has_shape_ncols (m n : nat) (x : matrix) :
  has_shape m n x -> (1 <= m)%nat -> ncols x = n.
Proof.
  intros H Hm. unfold ncols.
  rewrite <- (has_shape_row m n x 0 H) by lia.
  now destruct x.
Qed.

(** The per-chain means and variances of the source are the ones the
    document writes with indices. *)
Lemma mean_is_theta_spec (m n : nat) (x : matrix) (i : nat) :
  has_shape m n x -> (i < m)%nat ->
  Np.mean (nth i x []) = theta_spec n x i.
Proof.
  intros H Hi. unfold Np.mean, theta_spec, sum_upto, draw.
  rewrite (has_shape_row m n x i H Hi).
  rewrite (list_by_index (nth i x [])) at 1.
  now rewrite (has_shape_row m n x i H Hi).
Qed.

Lemma var_is_sigma2_spec (m n : nat) (x : matrix) (i : nat) :
  has_shape m n x -> (i < m)%nat ->
  Np.var (nth i x []) = sigma2_spec n x i.
Proof.
  intros H Hi. unfold Np.var, sigma2_spec.
  rewrite (mean_is_theta_spec m n x i H Hi).
  unfold Np.mean, sum_upto. rewrite length_map.
  rewrite (has_shape_row m n x i H Hi).
  rewrite (list_by_index (nth i x [])) at 1.
  rewrite map_map, (has_shape_row m n x i H Hi).
  reflexivity.
Qed.

Lemma map_seq_ext (f g : nat -> Q) (k : nat) :
  (forall i, (i < k)%nat -> f i = g i) ->
  map f (seq 0 k) = map g (seq 0 k).
Proof.
  intros H. apply map_ext_in. intros i Hi. apply in_seq in Hi.
  apply H. lia.
Qed.

Lemma theta_list (m n : nat) (x : matrix) :
  has_shape m n x -> map Np.mean x = map (theta_spec n x) (seq 0 m).
Proof.
  intros H. rewrite matrix_by_index. destruct H as [Hm Hrows].
  rewrite Hm. apply map_seq_ext. intros i Hi.
  now apply (mean_is_theta_spec m n).
Qed.

Lemma sigma_list (m n : nat) (x : matrix) :
  has_shape m n x -> map Np.var x = map (sigma2_spec n x) (seq 0 m).
Proof.
  intros H. rewrite matrix_by_index. destruct H as [Hm Hrows].
  rewrite Hm. apply map_seq_ext. intros i Hi.
  now apply (var_is_sigma2_spec m n).
Qed.

(** With at least two chains of at least one draw, the source computes the
    variances of the document at its grand mean. *)
Lemma gelman_rubin_variances_spec (m n : nat) (x : matrix) (mu : option Q) :
  has_shape m n x -> (2 <= m)%nat -> (1 <= n)%nat ->
  exists v_hat w,
    gelman_rubin_variances x mu = Ok (v_hat, w)
    /\ v_hat == V_hat_spec m n x (grand_mean (map Np.mean x) mu)
    /\ w == W_spec m n x.
Proof.
  intros H Hm Hn.
  assert (Hlen : length x = m) by apply H.
  assert (Hcols : ncols x = n) by (apply (has_shape_ncols m n); [exact H | lia]).
  unfold gelman_rubin_variances. rewrite Hlen, Hcols.
  replace (Z.of_nat m <? 2)%Z with false by (symmetry; apply Z.ltb_ge; lia).
  rewrite !float_div_ok by (apply float_of_Z_nonzero; lia).
  simpl bind. do 2 eexists. split; [reflexivity|].
  unfold V_hat_spec, B_spec, W_spec, sum_upto, Np.sub_scalar.
  rewrite (theta_list m n x H), (sigma_list m n x H), !map_map.
  unfold float_of_Z, Np.of_nat.
  rewrite inject_Z_mult, inject_Z_plus, !inject_Z_minus.
  change (inject_Z 1) with 1.
  split; reflexivity.
Qed.

(** C3: for a 2-D array of shape (m, n) with m >= 2 chains (of n >= 1
    draws, with a non-zero within-chain variance W, so that every division
    is one of finite numbers), [gelman_rubin_diagnostic] returns
    sqrt(V_hat / W) with B = n/(m-1) * sum_i (theta_i - theta_bar)^2,
    W = (1/m) * sum_i sigma_i^2 and V_hat = (n-1)/n * W + (m+1)/(m*n) * B
    over the per-chain means and variances; theta_bar is the mean of the
    per-chain means when no reference mean is given, and a non-zero
    reference mean when one is. *)
Theorem gelman_rubin_formula (m n : nat) (x : matrix) (mu : option Q) :
  has_shape m n x -> (2 <= m)%nat -> (1 <= n)%nat ->
  ~ W_spec m n x == 0 ->
  exists theta_bar,
    gelman_rubin_diagnostic x mu = Ok (R_hat_spec m n x theta_bar)
    /\ (mu = None -> theta_bar = mean_of_means_spec m n x)
    /\ (forall v, mu = Some v -> ~ v == 0 -> theta_bar = v).
Proof.
  intros H Hm Hn _.
  destruct (gelman_rubin_variances_spec m n x mu H Hm Hn)
    as [v_hat [w [Hvw [Hv Hw]]]].
  exists (grand_mean (map Np.mean x) mu). split; [|split].
  - unfold gelman_rubin_diagnostic. rewrite Hvw. simpl.
    unfold np_sqrt, R_hat_spec. do 2 f_equal.
    apply Qeq_eqR. now rewrite Hv, Hw.
  - intros ->. unfold grand_mean, mean_of_means_spec, sum_upto. simpl.
    rewrite (theta_list m n x H). unfold Np.mean.
    now rewrite length_map, length_seq.
  - intros v -> Hv0. unfold grand_mean. simpl.
    destruct (Qeq_bool v 0) eqn:E; [|reflexivity].
    apply Qeq_bool_eq in E. contradiction.
Qed.

Lemma gelman_rubin_formula_witness :
  exists theta_bar,
    gelman_rubin_diagnostic [[1; 3]; [5; 7]] (Some 1)
    = Ok (R_hat_spec 2 2 [[1; 3]; [5; 7]] theta_bar)
    /\ (Some 1 = None -> theta_bar = mean_of_means_spec 2 2 [[1; 3]; [5; 7]])
    /\ (forall v, Some 1 = Some v -> ~ v == 0 -> theta_bar = v).
Proof.
  apply gelman_rubin_formula; [|lia|lia|discriminate].
  split; [reflexivity|]. repeat constructor.
Defined.

(** C5: [gelman_rubin_diagnostic] raises the usage error ([ValueError])
    exactly when the number of chains is less than 2; with at least two
    chains (of at least one draw) it returns the statistic. *)
Theorem gelman_rubin_usage_error (x : matrix) (mu : option Q) :
  (gelman_rubin_diagnostic x mu = Raise ValueError <-> (length x < 2)%nat)
  /\ ((2 <= length x)%nat -> (1 <= ncols x)%nat ->
      exists r_hat, gelman_rubin_diagnostic x mu = Ok r_hat).
Proof.
  split; [split|].
  - intros Hraise.
    destruct (Nat.lt_ge_cases (length x) 2) as [Hlt|Hge]; [exact Hlt|].
    exfalso. revert Hraise.
    unfold gelman_rubin_diagnostic, gelman_rubin_variances.
    replace (Z.of_nat (length x) <? 2)%Z with false
      by (symmetry; apply Z.ltb_ge; lia).
    repeat match goal with
           | |- context [float_div ?a ?b] =>
               destruct (float_div_cases a b) as [-> | ->]; simpl bind
           end; discriminate.
  - intros Hlt. unfold gelman_rubin_diagnostic, gelman_rubin_variances.
    now replace (Z.of_nat (length x) <? 2)%Z with true
      by (symmetry; apply Z.ltb_lt; lia).
  - intros Hm Hn. unfold gelman_rubin_diagnostic, gelman_rubin_variances.
    replace (Z.of_nat (length x) <? 2)%Z with false
      by (symmetry; apply Z.ltb_ge; lia).
    rewrite !float_div_ok by (apply float_of_Z_nonzero; lia).
    simpl. eexists. reflexivity.
Qed.

(** ** The Gelman-Rubin diagnostic on identical chains and with a reference
    mean *)

Lemma Q2R_zero : Q2R 0 = 0%R.
Proof. unfold Q2R. simpl. lra. Qed.

Lemma Q2R_one : Q2R 1 = 1%R.
Proof. unfold Q2R. simpl. lra. Qed.

(** [np.sqrt] is injective on the non-negative rationals. *)
Lemma np_sqrt_inj (p q : Q) :
  0 <= p -> 0 <= q -> np_sqrt p = np_sqrt q -> p == q.
Proof.
  intros Hp Hq H. apply eqR_Qeq. unfold np_sqrt in H.
  apply sqrt_inj in H; [exact H | |];
    rewrite <- Q2R_zero; now apply Qle_Rle.
Qed.

Lemma np_sqrt_one : np_sqrt 1 = 1%R.
Proof. unfold np_sqrt. rewrite Q2R_one. apply sqrt_1. Qed.

Lemma np_sqrt_lt_one (q : Q) : 0 <= q -> q < 1 -> (np_sqrt q < 1)%R.
Proof.
  intros H0 H1. rewrite <- np_sqrt_one. unfold np_sqrt.
  apply sqrt_lt_1_alt. split.
  - rewrite <- Q2R_zero. now apply Qle_Rle.
  - now apply Qlt_Rlt.
Qed.

Lemma of_nat_succ (k : nat) : Np.of_nat (S k) == Np.of_nat k + 1.
Proof.
  unfold Np.of_nat. rewrite Nat2Z.inj_succ. unfold Z.succ.
  now rewrite inject_Z_plus.
Qed.

Lemma sum_repeat (a : Q) (k : nat) :
  Np.sum (repeat a k) == Np.of_nat k * a.
Proof.
  induction k as [|k IH].
  - simpl. unfold Np.of_nat. simpl. ring.
  - change (Np.sum (repeat a (S k))) with (a + Np.sum (repeat a k)).
    rewrite IH, of_nat_succ. ring.
Qed.

Lemma mean_repeat (a : Q) (k : nat) :
  (1 <= k)%nat -> Np.mean (repeat a k) == a.
Proof.
  intros Hk. unfold Np.mean. rewrite repeat_length, sum_repeat.
  field. now apply of_nat_nonzero.
Qed.

(** On [m] copies of one chain the between-chain sum vanishes: the pooled
    variance estimate is [(n-1)/n] times the variance of the chain, and the
    within-chain variance is the variance of the chain. *)
Lemma gelman_rubin_variances_identical (m : nat) (row : list Q) :
  (2 <= m)%nat -> (1 <= length row)%nat ->
  exists v_hat w,
    gelman_rubin_variances (repeat row m) None = Ok (v_hat, w)
    /\ w == Np.var row
    /\ v_hat
       == (Np.of_nat (length row) - 1) / Np.of_nat (length row) * Np.var row.
Proof.
  intros Hm Hn.
  assert (Hcols : ncols (repeat row m) = length row)
    by (destruct m; [lia | reflexivity]).
  unfold gelman_rubin_variances. rewrite repeat_length, Hcols.
  replace (Z.of_nat m <? 2)%Z with false by (symmetry; apply Z.ltb_ge; lia).
  rewrite !float_div_ok by (apply float_of_Z_nonzero; lia).
  simpl bind. do 2 eexists. split; [reflexivity|].
  unfold Np.sub_scalar. rewrite !map_repeat, !sum_repeat.
  rewrite (mean_repeat (Np.mean row) m) by lia.
  unfold float_of_Z. rewrite inject_Z_mult, inject_Z_plus, !inject_Z_minus.
  change (inject_Z 1) with 1.
  fold (Np.of_nat m). fold (Np.of_nat (length row)).
  assert (Hm0 : ~ Np.of_nat m == 0) by (apply of_nat_nonzero; lia).
  assert (Hn0 : ~ Np.of_nat (length row) == 0) by now apply of_nat_nonzero.
  assert (Hm1 : ~ Np.of_nat m - 1 == 0).
  { unfold Np.of_nat. change 1 with (inject_Z 1).
    rewrite <- inject_Z_minus. apply float_of_Z_nonzero. lia. }
  split; field; auto.
Qed.

(** C7 (amended): on m >= 2 identical chains of n >= 1 draws with non-zero
    within-chain variance and no reference mean, the between-chain variance
    is zero, V_hat reduces to (n-1)/n * W, and [gelman_rubin_diagnostic]
    returns sqrt((n-1)/n), which is strictly less than 1. *)
Theorem gelman_rubin_identical_chains (m : nat) (row : list Q) :
  (2 <= m)%nat -> (1 <= length row)%nat -> ~ Np.var row == 0 ->
  exists r_hat,
    gelman_rubin_diagnostic (repeat row m) None = Ok r_hat
    /\ r_hat
       = np_sqrt ((Np.of_nat (length row) - 1) / Np.of_nat (length row))
    /\ (r_hat < 1)%R.
Proof.
  intros Hm Hn Hvar.
  destruct (gelman_rubin_variances_identical m row Hm Hn)
    as [v_hat [w [Hvw [Hw Hv]]]].
  assert (Hn0 : ~ Np.of_nat (length row) == 0) by now apply of_nat_nonzero.
  assert (Hnpos : 0 < Np.of_nat (length row)) by now apply of_nat_pos.
  assert (Hq : v_hat / w
               == (Np.of_nat (length row) - 1) / Np.of_nat (length row)).
  { rewrite Hv, Hw. field. split; assumption. }
  eexists. split; [|split].
  - unfold gelman_rubin_diagnostic. rewrite Hvw. simpl. reflexivity.
  - unfold np_sqrt. f_equal. now apply Qeq_eqR.
  - unfold np_sqrt. rewrite (Qeq_eqR _ _ Hq). apply np_sqrt_lt_one.
    + apply Qle_shift_div_l; [exact Hnpos|]. rewrite Qmult_0_l.
      unfold Np.of_nat. change 1 with (inject_Z 1).
      rewrite <- inject_Z_minus. change 0 with (inject_Z 0).
      rewrite <- Zle_Qle. lia.
    + apply Qlt_shift_div_r; [exact Hnpos|]. rewrite Qmult_1_l.
      unfold Np.of_nat. change 1 with (inject_Z 1).
      rewrite <- inject_Z_minus, <- Zlt_Qlt. lia.
Qed.

Lemma gelman_rubin_identical_chains_witness :
  exists r_hat,
    gelman_rubin_diagnostic (repeat [1; 2] 2) None = Ok r_hat
    /\ r_hat = np_sqrt ((Np.of_nat (length [1; 2]) - 1)
                        / Np.of_nat (length [1; 2]))
    /\ (r_hat < 1)%R.
Proof.
  apply gelman_rubin_identical_chains; [lia | simpl; lia | discriminate].
Defined.

(** C7 as stated fails: two identical chains [1, 2] have between-chain
    variance zero and within-chain variance 1/4, and the diagnostic is
    sqrt(1/2), not 1. *)
Lemma gelman_rubin_identical_chains_not_one :
  let x := [[1; 2]; [1; 2]] in
  B_spec 2 2 x (mean_of_means_spec 2 2 x) == 0
  /\ ~ W_spec 2 2 x == 0
  /\ gelman_rubin_diagnostic x None = Ok (np_sqrt (1 # 2))
  /\ gelman_rubin_diagnostic x None <> Ok 1%R.
Proof.
  intros x.
  assert (Hvw : exists v_hat w,
             gelman_rubin_variances x None = Ok (v_hat, w)
             /\ v_hat / w == 1 # 2).
  { do 2 eexists. split; vm_compute; reflexivity. }
  destruct Hvw as [v_hat [w [Hvw Hq]]].
  assert (Hr : gelman_rubin_diagnostic x None = Ok (np_sqrt (1 # 2))).
  { unfold gelman_rubin_diagnostic. rewrite Hvw. simpl.
    unfold np_sqrt. do 2 f_equal. now apply Qeq_eqR. }
  split; [now vm_compute|]. split; [now vm_compute|]. split; [exact Hr|].
  rewrite Hr. intros H. injection H as H. rewrite <- np_sqrt_one in H.
  apply np_sqrt_inj in H; discriminate.
Qed.

(** C8: a reference mean of zero is dropped.  For the chains [1, 3] and
    [5, 7] and [mu = 0.0] the source takes the mean of the per-chain means,
    4, as grand mean, exactly as when no reference mean is given, and returns
    sqrt(25/2); with the supplied 0 as grand mean the statistic is
    sqrt(121/2). *)
Theorem gelman_rubin_zero_reference_mean_dropped :
  let x := [[1; 3]; [5; 7]] in
  gelman_rubin_diagnostic x (Some 0) = gelman_rubin_diagnostic x None
  /\ grand_mean (map Np.mean x) (Some 0) == 4
  /\ gelman_rubin_diagnostic x (Some 0) = Ok (np_sqrt (25 # 2))
  /\ R_hat_spec 2 2 x 0 = np_sqrt (121 # 2)
  /\ np_sqrt (25 # 2) <> np_sqrt (121 # 2).
Proof.
  intros x. split; [reflexivity|]. split; [now vm_compute|].
  split; [|split].
  - assert (Hvw : exists v_hat w,
               gelman_rubin_variances x (Some 0) = Ok (v_hat, w)
               /\ v_hat / w == 25 # 2).
    { do 2 eexists. split; vm_compute; reflexivity. }
    destruct Hvw as [v_hat [w [Hvw Hq]]].
    unfold gelman_rubin_diagnostic. rewrite Hvw. simpl.
    unfold np_sqrt. do 2 f_equal. now apply Qeq_eqR.
  - unfold R_hat_spec, np_sqrt. f_equal. apply Qeq_eqR. now vm_compute.
  - intros H. apply np_sqrt_inj in H; discriminate.
Qed.

(** ** The batched estimator: the accumulator never drops below one *)

Lemma has_shape3_shape (b t d : nat) (x : tensor) :
  has_shape3 b t d x -> (1 <= b)%nat -> (1 <= t)%nat ->
  shape x = (b, t, d).
Proof.
  intros [Hb Hch] Hb1 Ht1. unfold shape.
  destruct x as [|c x]; [simpl in Hb; lia|].
  inversion Hch as [|? ? Hc _]; subst. simpl hd.
  rewrite (has_shape_ncols t d c Hc Ht1).
  destruct Hc as [Hc _]. now rewrite Hc.
Qed.

Lemma threshold_pos : 0 < threshold.
Proof. reflexivity. Qed.

(** What a lag [1 <= s < t] adds for an autocorrelation above the threshold
    is strictly positive. *)
Lemma addition_pos (p : Q) (s t : nat) :
  Qgt_bool p threshold = true -> (1 <= s < t)%nat ->
  0 < 2 * p * (1 - Np.of_nat s / Np.of_nat t).
Proof.
  intros Hp Hs. apply Qgt_bool_iff in Hp.
  assert (Hp0 : 0 < p) by (apply Qlt_trans with threshold;
                           [apply threshold_pos | exact Hp]).
  assert (Ht : 0 < Np.of_nat t) by (apply of_nat_pos; lia).
  assert (Hst : Np.of_nat s / Np.of_nat t < 1).
  { apply Qlt_shift_div_r; [exact Ht|]. rewrite Qmult_1_l.
    unfold Np.of_nat. rewrite <- Zlt_Qlt. lia. }
  apply Qmult_lt_0_compat; [|lra].
  apply Qmult_lt_0_compat; [reflexivity | exact Hp0].
Qed.

Lemma ess_update_length (js : list nat) (p : list Q) (s t : nat) :
  forall ess_, length (ess_update js p s t ess_) = length ess_.
Proof.
  induction js as [|j js IH]; intros ess_; simpl; [reflexivity|].
  rewrite IH. destruct (Qgt_bool (nth j p 0) threshold);
    [apply length_setitem | reflexivity].
Qed.


Lemma ess_lag_loop_length (x : tensor) (mu var : list Q) (t d : nat) :
  forall lags ess_,
    length (ess_lag_loop x mu var t d lags ess_) = length ess_.
Proof.
  induction lags as [|s lags IH]; intros ess_; simpl; [reflexivity|].
  destruct (count_above _ =? 0)%nat; [reflexivity|].
  now rewrite IH, ess_update_length.
Qed.





(** ** The batched estimator follows its description *)

Lemma nth_map_lt {A B : Type} (f : A -> B) (l : list A) (i : nat)
  (dA : A) (dB : B) :
  (i < length l)%nat -> nth i (map f l) dB = f (nth i l dA).
Proof.
  intros Hi. rewrite (nth_indep _ dB (f dA)) by now rewrite length_map.
  apply map_nth.
Qed.

Lemma map_by_index {A : Type} (f : A -> Q) (l : list A) (dA : A) :
  map f l = map (fun i => f (nth i l dA)) (seq 0 (length l)).
Proof.
  apply (nth_ext _ _ 0 0).
  - now rewrite !length_map, length_seq.
  - intros i Hi. rewrite length_map in Hi.
    rewrite (nth_map_lt f l i dA) by assumption.
    rewrite (nth_map_lt _ (seq 0 (length l)) i 0%nat)
      by now rewrite length_seq.
    now rewrite seq_nth.
Qed.

Lemma nth_zip (f : Q * Q -> Q) (a b : list Q) (i : nat) :
  length a = length b -> (i < length a)%nat ->
  nth i (map f (combine a b)) 0 = f (nth i a 0, nth i b 0).
Proof.
  intros Hab Hi.
  rewrite (nth_map_lt f _ i (0, 0)) by (rewrite length_combine; lia).
  now rewrite combine_nth.
Qed.

Lemma length_zip (f : Q * Q -> Q) (a b : list Q) :
  length a = length b -> length (map f (combine a b)) = length a.
Proof. intros Hab. rewrite length_map, length_combine. lia. Qed.

Lemma Qgt_bool_comp (a b c : Q) : a == b -> Qgt_bool a c = Qgt_bool b c.
Proof. intros H. unfold Qgt_bool. now rewrite H. Qed.

Lemma sum_map_div (A : Type) (g : A -> Q) (v : Q) (l : list A) :
  Np.sum (map (fun a => g a / v) l) == Np.sum (map g l) / v.
Proof.
  induction l as [|a l IH]; simpl.
  - unfold Qdiv. ring.
  - rewrite IH. unfold Qdiv. ring.
Qed.

Lemma filter_none {A : Type} (f : A -> bool) (l : list A) :
  (forall a, In a l -> f a = false) -> filter f l = [].
Proof.
  induction l as [|a l IH]; intros H; simpl; [reflexivity|].
  rewrite (H a) by now left. apply IH. intros a' Ha'. apply H. now right.
Qed.

Lemma Forall2_Qeq_by_index (l1 l2 : list Q) :
  length l1 = length l2 ->
  (forall j, (j < length l1)%nat -> nth j l1 0 == nth j l2 0) ->
  Forall2 Qeq l1 l2.
Proof.
  revert l2. induction l1 as [|a l1 IH]; intros [|b l2] Hlen H;
    simpl in Hlen; try discriminate; constructor.
  - apply (H 0%nat). simpl. lia.
  - apply IH; [lia|]. intros j Hj. apply (H (S j)). simpl. lia.
Qed.

(** The accumulator after the loop over [j], entry by entry. *)
Lemma ess_update_nth (p : list Q) (s t : nat) :
  forall (js : list nat) (ess_ : list Q) (k : nat),
    NoDup js -> (k < length ess_)%nat ->
    nth k (ess_update js p s t ess_) 0
    = if existsb (Nat.eqb k) js && Qgt_bool (nth k p 0) threshold
      then nth k ess_ 0 + 2 * nth k p 0 * (1 - Np.of_nat s / Np.of_nat t)
      else nth k ess_ 0.
Proof.
  induction js as [|j js IH]; intros ess_ k Hnd Hk; [reflexivity|].
  inversion Hnd as [|? ? Hnotin Hnd']; subst.
  cbn [ess_update existsb].
  set (ess' := if Qgt_bool (nth j p 0) threshold
               then setitem ess_ j
                      (nth j ess_ 0
                       + 2 * nth j p 0 * (1 - Np.of_nat s / Np.of_nat t))
               else ess_).
  assert (Hlen : length ess' = length ess_).
  { unfold ess'. destruct (Qgt_bool (nth j p 0) threshold);
      [apply length_setitem | reflexivity]. }
  rewrite (IH ess' k Hnd') by lia.
  destruct (Nat.eqb_spec k j) as [->|Hkj].
  - assert (Hex : existsb (Nat.eqb j) js = false).
    { destruct (existsb (Nat.eqb j) js) eqn:E; [|reflexivity].
      apply existsb_exists in E. destruct E as [i [Hi Hji]].
      apply Nat.eqb_eq in Hji. subst. contradiction. }
    rewrite Hex. simpl. unfold ess'.
    destruct (Qgt_bool (nth j p 0) threshold); [|reflexivity].
    now apply nth_setitem_eq.
  - simpl.
    assert (Hnth : nth k ess' 0 = nth k ess_ 0).
    { unfold ess'. destruct (Qgt_bool (nth j p 0) threshold);
        [apply nth_setitem_neq; congruence | reflexivity]. }
    now rewrite Hnth.
Qed.

Lemma existsb_seq (k d : nat) :
  (k < d)%nat -> existsb (Nat.eqb k) (seq 0 d) = true.
Proof.
  intros Hk. apply existsb_exists. exists k. split.
  - apply in_seq. lia.
  - apply Nat.eqb_refl.
Qed.

Section BatchedRefinement.

Variables b t d : nat.
Variable x : tensor.
Variables mu var : list Q.

Hypothesis Hshape : has_shape3 b t d x.
Hypothesis Hb : (1 <= b)%nat.
Hypothesis Ht : (1 <= t)%nat.
Hypothesis Hmu : length mu = d.
Hypothesis Hvar : length var = d.

Lemma chain_shape (c : nat) : (c < b)%nat -> has_shape t d (nth c x []).
Proof.
  intros Hc. destruct Hshape as [Hlen Hall].
  rewrite Forall_forall in Hall. apply Hall, nth_In. lia.
Qed.

(** Column [j] of the lagged products of chain [c]. *)
Lemma lagged_column (c s j : nat) :
  (c < b)%nat -> (s <= t)%nat -> (j < d)%nat ->
  let y := map (fun row => Np.sub row mu) (nth c x []) in
  map (fun row => nth j row 0)
      (matrix_mul (firstn (length y - s) y) (skipn s y))
  = map (fun i => centered x mu c i j * centered x mu c (i + s) j)
        (seq 0 (t - s)).
Proof.
  intros Hc Hs Hj y.
  pose proof (chain_shape c Hc) as Hch.
  assert (Hly : length y = t)
    by (unfold y; rewrite length_map; apply Hch).
  assert (Hp : length (firstn (length y - s) y) = (t - s)%nat)
    by (rewrite length_firstn; lia).
  assert (Hn : length (skipn s y) = (t - s)%nat)
    by (rewrite length_skipn; lia).
  assert (Hrow : forall i, (i < t)%nat ->
                   nth i y [] = Np.sub (nth i (nth c x []) []) mu).
  { intros i Hi. unfold y.
    apply (nth_map_lt (fun row => Np.sub row mu) _ i []).
    destruct Hch as [Hch _]. lia. }
  assert (Hsub : forall i, (i < t)%nat ->
                   length (nth i (nth c x []) []) = length mu).
  { intros i Hi. rewrite Hmu. now apply (has_shape_row t d). }
  apply (nth_ext _ _ 0 0).
  - unfold matrix_mul.
    rewrite !length_map, length_combine, Hp, Hn, length_seq. lia.
  - intros i Hi. unfold matrix_mul in *.
    rewrite !length_map, length_combine, Hp, Hn in Hi.
    assert (Hi' : (i < t - s)%nat) by lia.
    rewrite (nth_map_lt (fun row => nth j row 0) _ i [])
      by (rewrite length_map, length_combine; lia).
    rewrite (nth_map_lt _ (combine _ _) i ([], []))
      by (rewrite length_combine; lia).
    rewrite combine_nth by lia. cbn [fst snd].
    rewrite nth_firstn, nth_skipn.
    replace (i <? length y - s)%nat with true
      by (symmetry; apply Nat.ltb_lt; lia).
    rewrite !Hrow by lia.
    unfold Np.mul.
    rewrite nth_zip
      by (unfold Np.sub; rewrite !length_zip; rewrite ?Hsub; lia).
    unfold Np.sub. rewrite !nth_zip by (rewrite ?Hsub; lia).
    cbn [fst snd].
    rewrite (nth_map_lt _ (seq 0 (t - s)) i 0%nat)
      by (rewrite length_seq; lia).
    rewrite seq_nth by lia. unfold centered.
    now rewrite (Nat.add_comm s i).
Qed.

(** What chain [c] adds to [act_] at coordinate [j]. *)
Lemma chain_term (c s j : nat) :
  (c < b)%nat -> (s <= t)%nat -> (j < d)%nat ->
  nth j (act_chain d s mu var (nth c x [])) 0
  = mean_product t x mu s c j / nth j var 0.
Proof.
  intros Hc Hs Hj. unfold act_chain, Np.div. cbv zeta.
  rewrite nth_zip
    by (unfold mean_axis0; rewrite length_map, length_seq; lia).
  cbn [fst snd]. f_equal. unfold mean_axis0.
  rewrite (nth_map_lt _ (seq 0 d) j 0%nat) by (rewrite length_seq; lia).
  rewrite seq_nth by lia. cbn [Nat.add].
  pose proof (lagged_column c s j Hc Hs Hj) as Hcol. cbv zeta in Hcol.
  rewrite Hcol.
  unfold Np.mean, mean_product, sum_upto.
  now rewrite length_map, length_seq.
Qed.

(** The sum over the chains, coordinate by coordinate. *)
Lemma fold_add_length (G : matrix -> list Q) :
  forall (chains : list matrix) (act_ : list Q),
    length act_ = d ->
    Forall (fun c => length (G c) = d) chains ->
    length (fold_left (fun a c => Np.add a (G c)) chains act_) = d.
Proof.
  induction chains as [|c chains IH]; intros act_ Hact HG; [exact Hact|].
  pose proof (Forall_inv HG) as Hc. cbv beta in Hc.
  pose proof (Forall_inv_tail HG) as HG'. cbn [fold_left].
  apply IH; [|exact HG'].
  unfold Np.add. rewrite length_zip; congruence.
Qed.

Lemma fold_add_nth (G : matrix -> list Q) :
  forall (chains : list matrix) (act_ : list Q) (j : nat),
    length act_ = d ->
    Forall (fun c => length (G c) = d) chains ->
    (j < d)%nat ->
    nth j (fold_left (fun a c => Np.add a (G c)) chains act_) 0
    == nth j act_ 0 + Np.sum (map (fun c => nth j (G c) 0) chains).
Proof.
  induction chains as [|c chains IH]; intros act_ j Hact HG Hj.
  - simpl. ring.
  - pose proof (Forall_inv HG) as Hc. cbv beta in Hc.
    pose proof (Forall_inv_tail HG) as HG'.
    cbn [fold_left map Np.sum fold_right].
    assert (Hlen : length (Np.add act_ (G c)) = length act_)
      by (apply length_zip; congruence).
    rewrite (IH (Np.add act_ (G c)) j) by (congruence || assumption).
    unfold Np.add at 1.
    rewrite nth_zip by (try congruence; lia).
    cbn [fst snd]. fold (Np.sum (map (fun c0 => nth j (G c0) 0) chains)).
    ring.
Qed.

Lemma shape_x : shape x = (b, t, d).
Proof. now apply has_shape3_shape. Qed.

Lemma act_chain_length (s : nat) (chains : list matrix) :
  Forall (fun c => length (act_chain d s mu var c) = d) chains.
Proof.
  apply Forall_forall. intros c _. unfold act_chain, Np.div.
  rewrite length_zip; unfold mean_axis0;
    rewrite length_map, length_seq; congruence.
Qed.

Lemma auto_correlation_time_unfold (s : nat) :
  auto_correlation_time x s mu var
  = map (fun v => v / Np.of_nat b)
        (fold_left (fun a c => Np.add a (act_chain d s mu var c)) x (repeat 0 d)).
Proof. unfold auto_correlation_time. now rewrite shape_x. Qed.

Lemma auto_correlation_time_length (s : nat) :
  length (auto_correlation_time x s mu var) = d.
Proof.
  rewrite auto_correlation_time_unfold, length_map.
  apply fold_add_length; [apply repeat_length | apply act_chain_length].
Qed.

(** The source's batch-averaged autocorrelation is the described one. *)
Lemma auto_correlation_time_nth (s j : nat) :
  (s <= t)%nat -> (j < d)%nat ->
  nth j (auto_correlation_time x s mu var) 0
  == autocorr_spec b t x mu var s j.
Proof.
  intros Hs Hj. rewrite auto_correlation_time_unfold.
  rewrite (nth_map_lt _ _ j 0)
    by (rewrite fold_add_length;
        [lia | apply repeat_length | apply act_chain_length]).
  rewrite fold_add_nth
    by (apply repeat_length || apply act_chain_length || exact Hj).
  rewrite nth_repeat.
  rewrite (map_by_index (fun c => nth j (act_chain d s mu var c) 0) x []).
  destruct Hshape as [Hlen _]. rewrite Hlen.
  rewrite (map_seq_ext _ (fun c => mean_product t x mu s c j / nth j var 0))
    by (intros c Hc; now apply chain_term).
  rewrite (sum_map_div _ (fun c => mean_product t x mu s c j)).
  unfold autocorr_spec, sum_upto. unfold Qdiv. ring.
Qed.

(** The early-stop test of the source is the described one. *)
Lemma count_above_significant (s : nat) :
  (s <= t)%nat ->
  (count_above (auto_correlation_time x s mu var) =? 0)%nat
  = negb (significant b t d x mu var s).
Proof.
  intros Hs. set (p := auto_correlation_time x s mu var).
  assert (Hlen : length p = d) by apply auto_correlation_time_length.
  unfold count_above.
  destruct (significant b t d x mu var s) eqn:Hsig; simpl.
  - apply existsb_exists in Hsig. destruct Hsig as [j [Hj Hgt]].
    apply in_seq in Hj.
    rewrite <- (Qgt_bool_comp _ _ threshold
                  (auto_correlation_time_nth s j Hs ltac:(lia))) in Hgt.
    fold p in Hgt.
    assert (Hin : In (nth j p 0)
                     (filter (fun v => Qgt_bool v threshold) p)).
    { apply filter_In. split; [apply nth_In; lia | exact Hgt]. }
    destruct (filter (fun v => Qgt_bool v threshold) p);
      [contradiction | reflexivity].
  - rewrite filter_none; [reflexivity|].
    intros v Hv. apply (In_nth _ _ 0) in Hv.
    destruct Hv as [j [Hj <-]]. rewrite Hlen in Hj.
    unfold p.
    rewrite (Qgt_bool_comp _ _ threshold
               (auto_correlation_time_nth s j Hs Hj)).
    destruct (Qgt_bool (autocorr_spec b t x mu var s j) threshold) eqn:E;
      [|reflexivity].
    assert (Hex : significant b t d x mu var s = true).
    { apply existsb_exists. exists j. split; [apply in_seq; lia | exact E]. }
    congruence.
Qed.

(** One pass of the loop over [j] adds the described increment. *)
Lemma ess_update_increment (s j : nat) (ess_ : list Q) :
  (s <= t)%nat -> (j < d)%nat -> length ess_ = d ->
  nth j (ess_update (seq 0 d) (auto_correlation_time x s mu var) s t ess_) 0
  == nth j ess_ 0 + increment b t x mu var s j.
Proof.
  intros Hs Hj Hlen.
  rewrite ess_update_nth by (apply seq_NoDup || lia).
  rewrite existsb_seq by exact Hj. cbn [andb].
  pose proof (auto_correlation_time_nth s j Hs Hj) as Hp.
  unfold increment. rewrite <- (Qgt_bool_comp _ _ threshold Hp).
  destruct (Qgt_bool (nth j (auto_correlation_time x s mu var) 0) threshold).
  - now rewrite Hp.
  - ring.
Qed.

(** The loop over the lags accumulates the described increments up to
    the early stop. *)
Lemma ess_lag_loop_spec :
  forall (lags : list nat) (ess_ : list Q) (j : nat),
    Forall (fun s => (s <= t)%nat) lags ->
    length ess_ = d -> (j < d)%nat ->
    nth j (ess_lag_loop x mu var t d lags ess_) 0
    == nth j ess_ 0
       + Np.sum (map (fun s => increment b t x mu var s j)
                     (lags_before_stop b t d x mu var lags)).
Proof.
  induction lags as [|s lags IH]; intros ess_ j Hl Hlen Hj.
  - simpl. ring.
  - pose proof (Forall_inv Hl) as Hs. cbv beta in Hs.
    pose proof (Forall_inv_tail Hl) as Hl'.
    cbn [ess_lag_loop lags_before_stop].
    rewrite (count_above_significant s Hs).
    destruct (significant b t d x mu var s); cbn [negb].
    + rewrite IH by (try assumption; now rewrite ess_update_length).
      rewrite (ess_update_increment s j ess_ Hs Hj Hlen).
      cbn [map Np.sum fold_right].
      fold (Np.sum (map (fun s0 => increment b t x mu var s0 j)
                        (lags_before_stop b t d x mu var lags))).
      ring.
    + simpl. ring.
Qed.

End BatchedRefinement.

Lemma mean_used_length (b t d : nat) (x : tensor) (mu : option (list Q)) :
  has_shape3 b t d x -> (1 <= b)%nat -> (1 <= t)%nat ->
  (forall v, mu = Some v -> length v = d) ->
  length (mean_used x mu) = d.
Proof.
  intros H Hb Ht Hmu. unfold mean_used.
  rewrite (has_shape3_shape b t d x H Hb Ht).
  destruct mu as [v|]; [now apply Hmu|].
  unfold mean_axis0. now rewrite length_map, length_seq.
Qed.

Lemma var_used_length (b t d : nat) (x : tensor) (var : option (list Q)) :
  has_shape3 b t d x -> (1 <= b)%nat -> (1 <= t)%nat ->
  (forall v, var = Some v -> length v = d) ->
  length (var_used x var) = d.
Proof.
  intros H Hb Ht Hvar. unfold var_used.
  rewrite (has_shape3_shape b t d x H Hb Ht).
  destruct var as [v|]; [now apply Hvar|].
  unfold var_axis0. now rewrite length_map, length_seq.
Qed.

(** Entry [j] of the result, against the description at the mean and
    variance the source uses. *)
Lemma effective_sample_size_nth (b t d : nat) (x : tensor)
  (mu var : option (list Q)) (j : nat) :
  has_shape3 b t d x -> (1 <= b)%nat -> (1 <= t)%nat ->
  (forall v, mu = Some v -> length v = d) ->
  (forall v, var = Some v -> length v = d) ->
  (j < d)%nat ->
  length (effective_sample_size x mu var) = d
  /\ nth j (effective_sample_size x mu var) 0
     == Np.of_nat t
        / accumulator_spec b t d x (mean_used x mu) (var_used x var) j.
Proof.
  intros H Hb Ht Hmu Hvar Hj.
  pose proof (mean_used_length b t d x mu H Hb Ht Hmu) as Hmul.
  pose proof (var_used_length b t d x var H Hb Ht Hvar) as Hvarl.
  unfold effective_sample_size. rewrite (has_shape3_shape b t d x H Hb Ht).
  split.
  - now rewrite length_map, ess_lag_loop_length, repeat_length.
  - rewrite (nth_map_lt _ _ j 0)
      by now rewrite ess_lag_loop_length, repeat_length.
    rewrite (ess_lag_loop_spec b t d x _ _ H Hb Ht Hmul Hvarl)
      by (try apply repeat_length; try exact Hj;
          apply Forall_forall; intros s Hs; apply in_seq in Hs; lia).
    rewrite nth_repeat_lt by exact Hj. reflexivity.
Qed.

Lemma sum_upto_Qeq (k : nat) (f g : nat -> Q) :
  (forall i, (i < k)%nat -> f i == g i) -> sum_upto k f == sum_upto k g.
Proof.
  intros H. unfold sum_upto. apply sum_map_Qeq.
  intros i Hi. apply in_seq in Hi. apply H. lia.
Qed.

(** The description depends on the mean and the variance only through
    their first [d] entries, up to the equality of rationals. *)
Section BatchedSpecExt.

Variables b t d : nat.
Variable x : tensor.
Variables mu1 var1 mu2 var2 : list Q.

Hypothesis Hmu_ext :
  forall j, (j < d)%nat -> nth j mu1 0 == nth j mu2 0.
Hypothesis Hvar_ext :
  forall j, (j < d)%nat -> nth j var1 0 == nth j var2 0.

Lemma autocorr_spec_ext (s j : nat) :
  (j < d)%nat ->
  autocorr_spec b t x mu1 var1 s j == autocorr_spec b t x mu2 var2 s j.
Proof.
  intros Hj. unfold autocorr_spec.
  rewrite (Hvar_ext j Hj).
  rewrite (sum_upto_Qeq b _ (fun c => mean_product t x mu2 s c j));
    [reflexivity|].
  intros c _. unfold mean_product.
  rewrite (sum_upto_Qeq (t - s) _
             (fun i => centered x mu2 c i j * centered x mu2 c (i + s) j));
    [reflexivity|].
  intros i _. unfold centered. now rewrite (Hmu_ext j Hj).
Qed.

Lemma significant_ext (s : nat) :
  significant b t d x mu1 var1 s = significant b t d x mu2 var2 s.
Proof.
  unfold significant.
  assert (Hext : forall l,
             (forall j, In j l -> (j < d)%nat) ->
             existsb (fun j => Qgt_bool (autocorr_spec b t x mu1 var1 s j)
                                        threshold) l
             = existsb (fun j => Qgt_bool (autocorr_spec b t x mu2 var2 s j)
                                          threshold) l).
  { induction l as [|j l IH]; intros Hl; [reflexivity|]. cbn [existsb].
    rewrite (Qgt_bool_comp _ _ threshold
               (autocorr_spec_ext s j (Hl j (or_introl eq_refl)))).
    rewrite IH; [reflexivity|]. intros j' Hj'. apply Hl. now right. }
  apply Hext. intros j Hj. apply in_seq in Hj. lia.
Qed.

Lemma lags_before_stop_ext (lags : list nat) :
  lags_before_stop b t d x mu1 var1 lags
  = lags_before_stop b t d x mu2 var2 lags.
Proof.
  induction lags as [|s lags IH]; [reflexivity|].
  cbn [lags_before_stop]. rewrite significant_ext, IH. reflexivity.
Qed.

Lemma accumulator_spec_ext (j : nat) :
  (j < d)%nat ->
  accumulator_spec b t d x mu1 var1 j == accumulator_spec b t d x mu2 var2 j.
Proof.
  intros Hj. unfold accumulator_spec. rewrite lags_before_stop_ext.
  rewrite (sum_map_Qeq _ (fun s => increment b t x mu2 var2 s j));
    [reflexivity|].
  intros s _. unfold increment.
  pose proof (autocorr_spec_ext s j Hj) as Hp.
  rewrite (Qgt_bool_comp _ _ threshold Hp).
  destruct (Qgt_bool (autocorr_spec b t x mu2 var2 s j) threshold);
    [now rewrite Hp | reflexivity].
Qed.

End BatchedSpecExt.

(** The sum over all the draws of all the chains, chain by chain and draw
    by draw. *)
Lemma sum_concat (f : list Q -> Q) (x : tensor) :
  Np.sum (map f (concat x))
  == Np.sum (map (fun chain => Np.sum (map f chain)) x).
Proof.
  induction x as [|chain x IH]; [reflexivity|].
  cbn [concat map Np.sum fold_right].
  fold (Np.sum (map (fun chain => Np.sum (map f chain)) x)).
  now rewrite map_app, sum_app, IH.
Qed.

Lemma sum_concat_by_index (b t d : nat) (x : tensor) (f : list Q -> Q) :
  has_shape3 b t d x ->
  Np.sum (map f (concat x))
  == sum_upto b (fun c => sum_upto t (fun i => f (nth i (nth c x []) []))).
Proof.
  intros [Hlen Hall]. subst b. rewrite sum_concat.
  rewrite (map_by_index (fun chain => Np.sum (map f chain)) x []).
  apply sum_upto_Qeq. intros c Hc. cbv beta.
  match goal with
  | |- context [map f ?l] =>
      assert (Hch : length l = t)
        by (rewrite Forall_forall in Hall; apply (Hall l), nth_In; exact Hc);
      rewrite (map_by_index f l []), Hch
  end.
  reflexivity.
Qed.

Lemma length_concat_shape (b t d : nat) (x : tensor) :
  has_shape3 b t d x -> length (concat x) = (b * t)%nat.
Proof.
  intros [Hlen Hall]. revert b Hlen.
  induction x as [|chain x IH]; intros b Hlen; simpl in Hlen; subst b;
    [reflexivity|].
  pose proof (Forall_inv Hall) as [Hch _].
  pose proof (Forall_inv_tail Hall) as Hall'.
  cbn [concat]. rewrite length_app, Hch, (IH Hall' (length x) eq_refl).
  simpl. lia.
Qed.

(** The mean and the variance the source uses are the described ones. *)
Lemma mean_used_spec (b t d : nat) (x : tensor) (mu : option (list Q))
  (j : nat) :
  has_shape3 b t d x -> (1 <= b)%nat -> (1 <= t)%nat -> (j < d)%nat ->
  nth j (mean_used x mu) 0 == nth j (mean_spec b t d x mu) 0.
Proof.
  intros H Hb Ht Hj. unfold mean_used, mean_spec.
  rewrite (has_shape3_shape b t d x H Hb Ht).
  destruct mu as [v|]; [reflexivity|].
  unfold mean_axis0.
  rewrite !(nth_map_lt _ (seq 0 d) j 0%nat) by now rewrite length_seq.
  rewrite seq_nth by exact Hj. cbn [Nat.add].
  unfold Np.mean, batch_mean_spec.
  rewrite length_map, (length_concat_shape b t d x H).
  now rewrite (sum_concat_by_index b t d x (fun row => nth j row 0) H).
Qed.

Lemma var_used_spec (b t d : nat) (x : tensor) (var : option (list Q))
  (j : nat) :
  has_shape3 b t d x -> (1 <= b)%nat -> (1 <= t)%nat -> (j < d)%nat ->
  nth j (var_used x var) 0 == nth j (var_spec b t d x var) 0.
Proof.
  intros H Hb Ht Hj. unfold var_used, var_spec.
  rewrite (has_shape3_shape b t d x H Hb Ht).
  destruct var as [v|]; [reflexivity|].
  unfold var_axis0.
  rewrite !(nth_map_lt _ (seq 0 d) j 0%nat) by now rewrite length_seq.
  rewrite seq_nth by exact Hj. cbn [Nat.add].
  pose proof (mean_used_spec b t d x None j H Hb Ht Hj) as Hmean.
  unfold mean_used, mean_spec in Hmean.
  rewrite (has_shape3_shape b t d x H Hb Ht) in Hmean.
  unfold mean_axis0 in Hmean.
  rewrite !(nth_map_lt _ (seq 0 d) j 0%nat) in Hmean
    by now rewrite length_seq.
  rewrite seq_nth in Hmean by exact Hj. cbn [Nat.add] in Hmean.
  set (col := map (fun row => nth j row 0) (concat x)) in *.
  unfold Np.var. unfold Np.mean at 1. rewrite !length_map.
  unfold col at 2 3. rewrite map_map, length_map.
  rewrite (length_concat_shape b t d x H).
  rewrite (sum_concat_by_index b t d x
             (fun row => (nth j row 0 - Np.mean col) ^ 2) H).
  unfold batch_var_spec.
  rewrite (sum_upto_Qeq b _
             (fun c => sum_upto t (fun i =>
                (nth j (nth i (nth c x []) []) 0
                 - batch_mean_spec b t x j) ^ 2)));
    [reflexivity|].
  intros c _. apply sum_upto_Qeq. intros i _. now rewrite Hmean.
Qed.

(** C4: for a tensor of shape (b, t, d), [effective_sample_size] starts
    every accumulator at one; for the lags s = 1 .. t-1 it computes the
    batch-averaged autocorrelation (the average over the chains of the mean
    product of the values, centered at the supplied or batch-and-time mean
    and separated by lag s, divided by the supplied or batch-and-time
    variance), stops at the first lag where no coordinate exceeds 0.05, and
    otherwise adds 2 * p[j] * (1 - s/t) for exactly the coordinates j with
    p[j] > 0.05; it returns t divided by the accumulator, coordinate by
    coordinate.  Every variance divided by is non-zero. *)
Theorem effective_sample_size_follows_description (b t d : nat) (x : tensor)
  (mu var : option (list Q)) :
  has_shape3 b t d x -> (1 <= b)%nat -> (1 <= t)%nat ->
  (forall v, mu = Some v -> length v = d) ->
  (forall v, var = Some v -> length v = d) ->
  (forall j, (j < d)%nat -> ~ nth j (var_spec b t d x var) 0 == 0) ->
  Forall2 Qeq (effective_sample_size x mu var)
              (ess_spec b t d x (mean_spec b t d x mu) (var_spec b t d x var)).
Proof.
  intros H Hb Ht Hmu Hvar _.
  apply Forall2_Qeq_by_index.
  - unfold ess_spec. rewrite length_map, length_seq.
    destruct d as [|d'].
    + unfold effective_sample_size.
      rewrite (has_shape3_shape b t 0 x H Hb Ht).
      now rewrite length_map, ess_lag_loop_length.
    + apply (effective_sample_size_nth b t (S d') x mu var 0 H Hb Ht Hmu Hvar).
      lia.
  - intros j Hj.
    assert (Hjd : (j < d)%nat).
    { destruct (Nat.lt_ge_cases j d) as [Hl|Hl]; [exact Hl|].
      exfalso. unfold effective_sample_size in Hj.
      rewrite (has_shape3_shape b t d x H Hb Ht) in Hj.
      rewrite length_map, ess_lag_loop_length, repeat_length in Hj. lia. }
    destruct (effective_sample_size_nth b t d x mu var j H Hb Ht Hmu Hvar Hjd)
      as [_ Hnth].
    rewrite Hnth. unfold ess_spec.
    rewrite (nth_map_lt _ (seq 0 d) j 0%nat) by now rewrite length_seq.
    rewrite seq_nth by exact Hjd. cbn [Nat.add].
    rewrite (accumulator_spec_ext b t d x
               (mean_used x mu) (var_used x var)
               (mean_spec b t d x mu) (var_spec b t d x var)).
    + reflexivity.
    + intros k Hk. now apply mean_used_spec.
    + intros k Hk. now apply var_used_spec.
    + exact Hjd.
Qed.

Lemma effective_sample_size_follows_description_witness :
  let x := [[[1; 1]; [2; 1]; [3; 2]; [4; 1]];
            [[2; 0]; [3; 1]; [3; 0]; [5; 1]]] in
  Forall2 Qeq (effective_sample_size x None None)
              (ess_spec 2 4 2 x (mean_spec 2 4 2 x None)
                        (var_spec 2 4 2 x None)).
Proof.
  intros x. apply effective_sample_size_follows_description; try lia.
  - split; [reflexivity|]. repeat constructor.
  - discriminate.
  - discriminate.
  - intros j Hj. destruct j as [|[|j]]; [discriminate | discriminate | lia].
Defined.

(** ** The batched estimator: bounds on the accumulator and the result *)



(** ** The estimators on small inputs *)

Example compute_acorr_lag_one :
  compute_acorr [1; 2; 3; 4; 5; 6; 7; 8] 1 (9 # 2) (21 # 4) == 5 # 8.
Proof. reflexivity. Qed.

Example ess_1d_eight_draws :
  exists ess trace,
    ess_1d [1; 2; 3; 4; 5; 6; 7; 8] (9 # 2) (21 # 4) = Some (ess, trace)
    /\ ess_equiv ess (Fin (336 # 115))
    /\ Forall2 Qeq trace
               [1; 5 # 8; 23 # 84; - (5 # 168); - (11 # 42); - (67 # 168)].
Proof.
  do 2 eexists. split; [vm_compute; reflexivity|].
  split; [reflexivity | repeat constructor].
Qed.

Example ess_1d_negative_sum :
  exists accumulated trace,
    ess_accumulated [1; 2; 1] (4 # 3) (2 # 9) = Some accumulated
    /\ accumulated == - (1)
    /\ ess_1d [1; 2; 1] (4 # 3) (2 # 9) = Some (PosInf, trace).
Proof. do 2 eexists. repeat split; vm_compute; reflexivity. Qed.

Example gelman_rubin_one_chain :
  gelman_rubin_diagnostic [[1; 2; 3]] None = Raise ValueError.
Proof. reflexivity. Qed.

Example gelman_rubin_no_draws :
  gelman_rubin_diagnostic [[]; []] None = Raise ZeroDivisionError.
Proof. reflexivity. Qed.

Example effective_sample_size_two_chains :
  Forall2 Qeq
    (effective_sample_size
       [[[1; 1]; [2; 1]; [3; 2]; [4; 1]]; [[2; 0]; [3; 1]; [3; 0]; [5; 1]]]
       None None)
    [696 # 233; 46 # 19].
Proof. repeat constructor. Qed.

(** ** Further properties of the autocorrelation kernel *)

Lemma sum_map_scale {A : Type} (f : A -> Q) (c : Q) (l : list A) :
  Np.sum (map (fun a => c * f a) l) == c * Np.sum (map f l).
Proof.
  induction l as [|a l IH]; simpl; [ring|]. rewrite IH. ring.
Qed.

Lemma sum_map_nonneg {A : Type} (f : A -> Q) (l : list A) :
  (forall a, In a l -> 0 <= f a) -> 0 <= Np.sum (map f l).
Proof.
  induction l as [|a l IH]; intros H; simpl; [apply Qle_refl|].
  assert (H1 : 0 <= f a) by (apply H; now left).
  assert (H2 : 0 <= Np.sum (map f l))
    by (apply IH; intros a' Ha'; apply H; now right).
  lra.
Qed.

Lemma Qsquare_nonneg (q : Q) : 0 <= q ^ 2.
Proof. simpl. nra. Qed.

(** At lag zero the two slices are the whole series. *)
Lemma lag_zero_products (x : list Q) (mu : Q) :
  Np.mul (Np.sub_scalar (firstn (length x - 0) x) mu)
         (Np.sub_scalar (skipn 0 x) mu)
  = map (fun v => (v - mu) * (v - mu)) x.
Proof.
  rewrite Nat.sub_0_r, firstn_all. simpl skipn.
  unfold Np.mul, Np.sub_scalar.
  induction x as [|v x IH]; simpl; [reflexivity|]. now rewrite IH.
Qed.

(** With the empirical mean and variance of the series the lag-0
    autocorrelation is one. *)
Theorem compute_acorr_lag_zero_empirical (x : list Q) :
  ~ Np.var x == 0 ->
  compute_acorr x 0 (Np.mean x) (Np.var x) == 1.
Proof.
  intros Hvar.
  assert (Hn : (1 <= length x)%nat).
  { destruct x as [|v x]; [|simpl; lia].
    exfalso. apply Hvar. reflexivity. }
  unfold compute_acorr. rewrite lag_zero_products.
  assert (Hm : Np.mean (map (fun v => (v - Np.mean x) * (v - Np.mean x)) x)
               == Np.var x).
  { unfold Np.var, Np.mean at 1 4. rewrite !length_map.
    rewrite (sum_map_Qeq _ (fun v => (v - Np.mean x) ^ 2));
      [reflexivity|]. intros v _. simpl. ring. }
  rewrite Hm, Nat.sub_0_r. field.
  repeat split; try assumption; now apply of_nat_nonzero.
Qed.

Lemma compute_acorr_lag_zero_empirical_witness :
  compute_acorr [1; 2; 4] 0 (Np.mean [1; 2; 4]) (Np.var [1; 2; 4]) == 1.
Proof. apply compute_acorr_lag_zero_empirical. discriminate. Defined.

(** For a positive variance the lag-0 autocorrelation is not negative. *)
Lemma compute_acorr_lag_zero_nonneg (x : list Q) (mu var : Q) :
  0 < var -> 0 <= compute_acorr x 0 mu var.
Proof.
  intros Hvar. unfold compute_acorr. rewrite lag_zero_products.
  rewrite Nat.sub_0_r. unfold Np.mean. rewrite length_map.
  assert (Hs : 0 <= Np.sum (map (fun v => (v - mu) * (v - mu)) x))
    by (apply sum_map_nonneg; intros v _; set (a := v - mu); nra).
  assert (Hn : 0 <= Np.of_nat (length x)) by apply of_nat_nonneg.
  assert (Hi : 0 <= / Np.of_nat (length x)) by now apply Qinv_le_0_compat.
  assert (Hv : 0 <= / var) by (apply Qinv_le_0_compat; lra).
  unfold Qdiv.
  repeat apply Qmult_le_0_compat; assumption.
Qed.

(** The autocorrelation does not change when the series and the mean are
    rescaled and shifted together and the variance is rescaled to match. *)
Theorem compute_acorr_affine (x : list Q) (k : nat) (mu var a c : Q) :
  (k < length x)%nat -> ~ var == 0 -> ~ a == 0 ->
  compute_acorr (map (fun v => a * v + c) x) k (a * mu + c) (a * a * var)
  == compute_acorr x k mu var.
Proof.
  intros Hk Hvar Ha. unfold compute_acorr.
  rewrite lagged_products by (rewrite length_map; lia).
  rewrite lagged_products by lia.
  unfold Np.mean. rewrite !length_map, !length_seq.
  set (f := fun i => (nth i x 0 - mu) * (nth (i + k) x 0 - mu)).
  rewrite (sum_map_Qeq _ (fun i => (a * a) * f i)).
  - rewrite sum_map_scale. field.
    repeat split; try assumption; apply of_nat_nonzero; lia.
  - intros i Hi. apply in_seq in Hi. unfold f.
    rewrite !(nth_indep (map _ x) 0 ((fun v => a * v + c) 0))
      by (rewrite length_map; lia).
    rewrite !(map_nth (fun v => a * v + c)). ring.
Qed.

Lemma compute_acorr_affine_witness :
  compute_acorr (map (fun v => 3 * v + 5) [1; 2; 4]) 1 (3 * 2 + 5) (3 * 3 * 2)
  == compute_acorr [1; 2; 4] 1 2 2.
Proof.
  apply compute_acorr_affine; [simpl; lia | discriminate | discriminate].
Defined.

(** ** Further properties of the monotone-sequence estimator *)

(** A property kept by every pass of the loop holds on exit, where the loop
    condition is false. *)
Lemma ess_loop_invariant (x : list Q) (mu var : Q) (P : ess_state -> Prop) :
  (forall st, P st -> ess_cond x st = true -> P (ess_body x mu var st)) ->
  forall fuel st st',
    P st -> ess_loop x mu var fuel st = Some st' ->
    P st' /\ ess_cond x st' = false.
Proof.
  intros Hstep. induction fuel as [|fuel IH]; intros st st' HP Hrun;
    [discriminate|].
  simpl in Hrun. destruct (ess_cond x st) eqn:Hc.
  - apply (IH (ess_body x mu var st)); [now apply Hstep | exact Hrun].
  - injection Hrun as <-. now split.
Qed.

(** The trace holds an even number of autocorrelations, at least two, and
    for a series of at least two draws every one of them is at a lag below
    the length of the series. *)
Theorem ess_1d_trace_length (x : list Q) (mu var : Q) :
  (2 <= length x)%nat ->
  exists ess trace,
    ess_1d x mu var = Some (ess, trace)
    /\ Nat.Even (length trace)
    /\ (2 <= length trace <= length x)%nat.
Proof.
  intros Hn. destruct (ess_final_total x mu var) as [st Hst].
  set (P := fun st : ess_state =>
              length (auto_cor st) = (lag st + 1)%nat
              /\ Nat.Odd (lag st) /\ (lag st < length x)%nat).
  assert (HP : P st /\ ess_cond x st = false).
  { apply (ess_loop_invariant x mu var P)
      with (fuel := S (length x)) (st := ess_init x mu var).
    - intros s [Hl [Ho Hlt]] Hc.
      apply (ess_cond_iff x mu var) in Hc. destruct Hc as [_ Hc].
      unfold P. simpl. rewrite !length_app, Hl. simpl.
      split; [lia|]. split; [|lia].
      destruct Ho as [q Hq]. exists (q + 1)%nat. lia.
    - unfold P. simpl. split; [reflexivity|]. split; [now exists 0%nat | lia].
    - exact Hst. }
  destruct HP as [[Hl [[q Hq] Hlt]] _].
  exists (fst (ess_return x st)), (auto_cor st).
  split; [unfold ess_1d; now rewrite Hst|].
  rewrite Hl. split; [exists (q + 1)%nat | ]; lia.
Qed.

Lemma ess_1d_trace_length_witness :
  exists ess trace,
    ess_1d [1; 2; 3; 4; 5; 6; 7; 8] (9 # 2) (21 # 4) = Some (ess, trace)
    /\ Nat.Even (length trace)
    /\ (2 <= length trace <= length [1; 2; 3; 4; 5; 6; 7; 8])%nat.
Proof. apply ess_1d_trace_length. simpl. lia. Defined.

(** For a series of at least two draws and a non-zero variance, every pass
    of the loop adds a strictly positive amount to the accumulated sum and
    does not raise the running minimum: on exit the accumulated sum is at
    least minus the lag-0 autocorrelation, and the running minimum at most
    the first pair sum. *)
Theorem ess_1d_accumulates_upwards (x : list Q) (mu var : Q) :
  (2 <= length x)%nat -> ~ var == 0 ->
  exists st,
    ess_final x mu var = Some st
    /\ - acorr x mu var 0 <= auto_cor_sum st
    /\ running_min st <= acorr x mu var 0 + acorr x mu var 1
    /\ ((1 < lag st)%nat ->
        0 < running_min st /\ - acorr x mu var 0 < auto_cor_sum st).
Proof.
  intros _ _.
  destruct (ess_final_total x mu var) as [st Hst]. exists st.
  split; [exact Hst|].
  set (a0 := acorr x mu var 0). set (a1 := acorr x mu var 1).
  set (P := fun st : ess_state =>
              (1 <= lag st)%nat
              /\ - a0 <= auto_cor_sum st
              /\ running_min st <= a0 + a1
              /\ (lag st = 1%nat ->
                  running_min st = even_auto_cor st + odd_auto_cor st)
              /\ ((1 < lag st)%nat ->
                  0 < running_min st /\ - a0 < auto_cor_sum st)).
  assert (HP : P st /\ ess_cond x st = false).
  { apply (ess_loop_invariant x mu var P)
      with (fuel := S (length x)) (st := ess_init x mu var).
    - intros s [Hl [Hacc [Hmin [Hfirst Hlater]]]] Hc.
      apply (ess_cond_iff x mu var) in Hc. destruct Hc as [Hpos _].
      assert (Hrm : 0 < running_min s).
      { destruct (Nat.eq_dec (lag s) 1) as [E|E].
        - now rewrite (Hfirst E).
        - apply Hlater. lia. }
      assert (Hmin' : 0 < Qmin (running_min s)
                               (even_auto_cor s + odd_auto_cor s))
        by now apply Q.min_glb_lt.
      assert (Hle : Qmin (running_min s) (even_auto_cor s + odd_auto_cor s)
                    <= running_min s) by apply Q.le_min_l.
      unfold P. simpl.
      split; [lia|]. split; [lra|]. split; [lra|].
      split; [lia|]. intros _. split; [exact Hmin' | lra].
    - unfold P, a0, a1, acorr. simpl.
      split; [lia|]. split; [lra|]. split; [lra|].
      split; [reflexivity | lia].
    - exact Hst. }
  destruct HP as [[_ [Hacc [Hmin [_ Hlater]]]] _].
  split; [exact Hacc | split; [exact Hmin | exact Hlater]].
Qed.

Lemma ess_1d_accumulates_upwards_witness :
  let x := [1; 2; 3; 4; 5; 6; 7; 8] in
  let mu := 9 # 2 in
  let var := 21 # 4 in
  exists st,
    ess_final x mu var = Some st
    /\ - acorr x mu var 0 <= auto_cor_sum st
    /\ running_min st <= acorr x mu var 0 + acorr x mu var 1
    /\ ((1 < lag st)%nat ->
        0 < running_min st /\ - acorr x mu var 0 < auto_cor_sum st).
Proof.
  intros x mu var.
  apply ess_1d_accumulates_upwards; [simpl; lia | discriminate].
Defined.

(** A series of two or three draws never enters the loop: with a positive
    variance its effective sample size is always infinite. *)
Theorem ess_1d_short_series (x : list Q) (mu var : Q) :
  (2 <= length x <= 3)%nat -> 0 < var ->
  ess_1d x mu var
  = Some (PosInf, [compute_acorr x 0 mu var; compute_acorr x 1 mu var]).
Proof.
  intros Hn Hvar.
  assert (Hc : ess_cond x (ess_init x mu var) = false).
  { unfold ess_cond. simpl lag.
    replace (1 + 2 <? length x)%nat with false
      by (symmetry; apply Nat.ltb_ge; lia).
    apply andb_false_r. }
  unfold ess_1d, ess_final. simpl ess_loop. rewrite Hc. simpl option_map.
  unfold ess_return. simpl auto_cor_sum. simpl auto_cor.
  pose proof (compute_acorr_lag_zero_nonneg x mu var Hvar) as H0.
  destruct (Qlt_bool (0 - compute_acorr x 0 mu var) 0) eqn:E;
    [reflexivity|].
  unfold np_truediv.
  assert (Hz : 0 - compute_acorr x 0 mu var == 0).
  { destruct (Qlt_le_dec (0 - compute_acorr x 0 mu var) 0) as [H|H].
    - apply Qlt_bool_iff in H. congruence.
    - lra. }
  now rewrite (Qeq_eq_bool _ _ Hz).
Qed.

Lemma ess_1d_short_series_witness :
  ess_1d [1; 2; 1] (4 # 3) (2 # 9)
  = Some (PosInf, [compute_acorr [1; 2; 1] 0 (4 # 3) (2 # 9);
                   compute_acorr [1; 2; 1] 1 (4 # 3) (2 # 9)]).
Proof. apply ess_1d_short_series; [simpl; lia | reflexivity]. Defined.

(** ** Further properties of the multi-dimensional driver *)

Lemma column_ok (m : matrix) (j : nat) :
  (j < ncols m)%nat -> column m j = Ok (map (fun row => nth j row 0) m).
Proof.
  intros Hj. unfold column.
  now replace (j <? ncols m)%nat with true by (symmetry; apply Nat.ltb_lt; lia).
Qed.

Lemma column_out_of_range (m : matrix) (j : nat) :
  (ncols m <= j)%nat -> column m j = Raise IndexError.
Proof.
  intros Hj. unfold column.
  now replace (j <? ncols m)%nat with false
    by (symmetry; apply Nat.ltb_ge; lia).
Qed.

Lemma ess_1d_total (x : list Q) (mu var : Q) :
  exists r, ess_1d x mu var = Some r.
Proof.
  destruct (ess_final_total x mu var) as [st Hst].
  exists (ess_return x st). unfold ess_1d. now rewrite Hst.
Qed.

(** The loop over the columns succeeds when every index is a column. *)
Lemma mono_seq_loop_ok (m : matrix) (mu var : Q) :
  forall js ess auto_cor,
    (forall j, In j js -> (j < ncols m)%nat) ->
    exists ess' auto_cor',
      mono_seq_loop m mu var js ess auto_cor = Ok (ess', auto_cor').
Proof.
  induction js as [|j js IH]; intros ess ac Hjs; simpl.
  - now exists ess, ac.
  - rewrite column_ok by (apply Hjs; now left). simpl.
    destruct (ess_1d_total (map (fun row => nth j row 0) m) mu var)
      as [[e tr] ->]. simpl.
    apply IH. intros j' Hj'. apply Hjs. now right.
Qed.

(** It raises [IndexError] at the first index that is not a column. *)
Lemma mono_seq_loop_index_error (m : matrix) (mu var : Q) :
  forall js ess auto_cor,
    (exists j, In j js /\ (ncols m <= j)%nat) ->
    mono_seq_loop m mu var js ess auto_cor = Raise IndexError.
Proof.
  induction js as [|j js IH]; intros ess ac [j' [Hin Hj']]; [contradiction|].
  simpl. destruct (Nat.lt_ge_cases j (ncols m)) as [Hlt|Hge].
  - rewrite column_ok by exact Hlt. simpl.
    destruct (ess_1d_total (map (fun row => nth j row 0) m) mu var)
      as [[e tr] ->]. simpl.
    apply IH. exists j'. split; [|exact Hj'].
    destruct Hin as [->|Hin]; [lia | exact Hin].
  - now rewrite column_out_of_range.
Qed.

(** Every entry written by the loop is the estimate of its column. *)
Lemma mono_seq_loop_entries (m : matrix) (mu var : Q) :
  forall js ess auto_cor ess' auto_cor',
    NoDup js ->
    mono_seq_loop m mu var js ess auto_cor = Ok (ess', auto_cor') ->
    forall k, (k < length ess)%nat ->
      (In k js ->
       exists x trace,
         column m k = Ok x
         /\ ess_1d x mu var = Some (nth k ess' (Fin 0), trace))
      /\ (~ In k js -> nth k ess' (Fin 0) = nth k ess (Fin 0)).
Proof.
  induction js as [|j js IH]; intros ess ac ess' ac' Hnd H k Hk; simpl in H.
  - injection H as <- <-. split; [contradiction | reflexivity].
  - pose proof (NoDup_cons_iff j js) as [Hcons _].
    destruct (Hcons Hnd) as [Hnotin Hnd'].
    destruct (column m j) as [x| |] eqn:Hcol; simpl in H; try discriminate.
    destruct (ess_1d x mu var) as [[e tr]|] eqn:Hess; simpl in H;
      try discriminate.
    destruct (IH _ _ _ _ Hnd' H k) as [IHin IHout];
      [now rewrite length_setitem|].
    split.
    + intros [->|Hin]; [|now apply IHin].
      exists x, tr. split; [exact Hcol|].
      rewrite (IHout Hnotin), nth_setitem_eq by exact Hk. exact Hess.
    + intros Hout. rewrite IHout by (intros Hin; apply Hout; now right).
      apply nth_setitem_neq. intros ->. apply Hout. now left.
Qed.

(** The outcome of [mono_seq_ess] depends on the number of rows of the
    array, not on its data: no row gives [ValueError]; [n >= 1] rows give
    [n - 1] values when the array has at least [n - 1] columns and
    [IndexError] when it has fewer. *)
Theorem mono_seq_ess_outcome (samples : sample_table) (key : string)
  (mu var : option Q) (m : matrix) :
  getitem samples key = Ok m ->
  (length m = 0%nat -> mono_seq_ess samples key mu var = Raise ValueError)
  /\ ((1 <= length m)%nat -> (length m - 1 <= ncols m)%nat ->
      exists ess, mono_seq_ess samples key mu var = Ok ess
                  /\ length ess = (length m - 1)%nat)
  /\ ((ncols m < length m - 1)%nat ->
      mono_seq_ess samples key mu var = Raise IndexError).
Proof.
  intros Hget. unfold mono_seq_ess. rewrite Hget. simpl bind.
  split; [|split].
  - intros ->. reflexivity.
  - intros Hn Hc.
    replace (Z.of_nat (length m) - 1 <? 0)%Z with false
      by (symmetry; apply Z.ltb_ge; lia).
    replace (Z.to_nat (Z.of_nat (length m) - 1)) with (length m - 1)%nat
      by lia.
    match goal with
    | |- context [mono_seq_loop m ?a ?b ?js ?e ?ac] =>
        destruct (mono_seq_loop_ok m a b js e ac) as [ess' [ac' Hloop]]
    end.
    { intros j Hj. apply in_seq in Hj. lia. }
    rewrite Hloop. simpl. exists ess'. split; [reflexivity|].
    apply mono_seq_loop_lengths in Hloop. destruct Hloop as [-> _].
    apply repeat_length.
  - intros Hc.
    replace (Z.of_nat (length m) - 1 <? 0)%Z with false
      by (symmetry; apply Z.ltb_ge; lia).
    replace (Z.to_nat (Z.of_nat (length m) - 1)) with (length m - 1)%nat
      by lia.
    rewrite mono_seq_loop_index_error; [reflexivity|].
    exists (ncols m). split; [apply in_seq; lia | lia].
Qed.

Lemma mono_seq_ess_outcome_witness :
  let m := [[1; 2; 3]; [2; 4; 1]; [3; 1; 2]] in
  (length m = 0%nat ->
   mono_seq_ess [("x"%string, m)] "x"%string None None = Raise ValueError)
  /\ ((1 <= length m)%nat -> (length m - 1 <= ncols m)%nat ->
      exists ess,
        mono_seq_ess [("x"%string, m)] "x"%string None None = Ok ess
        /\ length ess = (length m - 1)%nat)
  /\ ((ncols m < length m - 1)%nat ->
      mono_seq_ess [("x"%string, m)] "x"%string None None
      = Raise IndexError).
Proof. intros m. apply mono_seq_ess_outcome. reflexivity. Defined.

(** A key that is not in the table raises [KeyError], whatever the other
    arguments. *)
Theorem mono_seq_ess_missing_key (samples : sample_table) (key : string)
  (mu var : option Q) :
  (forall k m, In (k, m) samples -> k <> key) ->
  mono_seq_ess samples key mu var = Raise KeyError.
Proof.
  intros Hkey. unfold mono_seq_ess.
  assert (Hget : getitem samples key = Raise KeyError).
  { induction samples as [|[k m] samples IH]; [reflexivity|]. simpl.
    destruct (String.eqb_spec k key) as [->|Hne].
    - exfalso. apply (Hkey key m); [now left | reflexivity].
    - apply IH. intros k' m' Hin. apply (Hkey k' m'). now right. }
  now rewrite Hget.
Qed.

Lemma mono_seq_ess_missing_key_witness :
  mono_seq_ess [("x"%string, [[1; 2]; [2; 1]])] "y"%string None None
  = Raise KeyError.
Proof.
  apply mono_seq_ess_missing_key.
  intros k m [H|[]]. injection H as <- _. discriminate.
Defined.

(** Every value returned is the estimate [ess_1d] gives for its column,
    computed against the supplied mean and variance or, when none is
    supplied, against the mean and variance of the whole array. *)
Theorem mono_seq_ess_entries (samples : sample_table) (key : string)
  (mu var : option Q) (m : matrix) (ess : list ess_value) :
  getitem samples key = Ok m ->
  mono_seq_ess samples key mu var = Ok ess ->
  forall j, (j < length ess)%nat ->
    exists x trace,
      column m j = Ok x
      /\ ess_1d x
                (match mu with None => matrix_mean m | Some v => v end)
                (match var with None => matrix_var m | Some v => v end)
         = Some (nth j ess (Fin 0), trace).
Proof.
  intros Hget H j Hj. unfold mono_seq_ess in H. rewrite Hget in H.
  simpl bind in H.
  destruct (Z.of_nat (length m) - 1 <? 0)%Z eqn:Hd; [discriminate|].
  match type of H with
  | bind ?r _ = _ => destruct r as [[ess' ac']| |] eqn:Hloop
  end; simpl in H; try discriminate.
  injection H as <-.
  pose proof (mono_seq_loop_lengths _ _ _ _ _ _ _ _ Hloop) as [Hlen _].
  rewrite repeat_length in Hlen.
  destruct (mono_seq_loop_entries _ _ _ _ _ _ _ _ (seq_NoDup _ _) Hloop j)
    as [Hin _]; [rewrite repeat_length; lia|].
  apply Hin. apply in_seq. lia.
Qed.

Lemma mono_seq_ess_entries_witness :
  let m := [[1; 2; 3]; [2; 4; 1]; [3; 1; 2]] in
  exists x trace,
    column m 1 = Ok x
    /\ ess_1d x (matrix_mean m) (matrix_var m)
       = Some (nth 1 [PosInf; PosInf] (Fin 0), trace).
Proof.
  intros m.
  apply (mono_seq_ess_entries [("x"%string, m)] "x"%string None None m
                              [PosInf; PosInf]);
    [reflexivity | now vm_compute | simpl; lia].
Defined.

(** ** Further properties of the Gelman-Rubin diagnostic *)

Lemma gelman_rubin_empty_chains_aux (x : matrix) (mu : option Q) :
  (2 <= length x)%nat -> ncols x = 0%nat ->
  gelman_rubin_diagnostic x mu = Raise ZeroDivisionError.
Proof.
  intros Hm Hn. unfold gelman_rubin_diagnostic, gelman_rubin_variances.
  rewrite Hn.
  replace (Z.of_nat (length x) <? 2)%Z with false
    by (symmetry; apply Z.ltb_ge; lia).
  rewrite (float_div_ok _ (float_of_Z (Z.of_nat (length x) - 1)))
    by (apply float_of_Z_nonzero; lia).
  rewrite (float_div_ok 1) by (apply float_of_Z_nonzero; lia).
  reflexivity.
Qed.

(** Chains without draws: with at least two chains the division by
    [float(n)] raises [ZeroDivisionError], whatever the reference mean. *)
Theorem gelman_rubin_empty_chains (x : matrix) (mu : option Q) :
  (2 <= length x)%nat -> ncols x = 0%nat ->
  gelman_rubin_diagnostic x mu = Raise ZeroDivisionError.
Proof. apply gelman_rubin_empty_chains_aux. Qed.

Lemma gelman_rubin_empty_chains_witness :
  gelman_rubin_diagnostic [[]; []; []] (Some 1) = Raise ZeroDivisionError.
Proof. apply gelman_rubin_empty_chains; [simpl; lia | reflexivity]. Defined.

(** With at least two chains of at least one draw the source computes
    [v_hat] and [w] by the formulas of lines 181-185. *)
Lemma gelman_rubin_variances_ok (x : matrix) (mu : option Q) :
  (2 <= length x)%nat -> (1 <= ncols x)%nat ->
  let m := Np.of_nat (length x) in
  let n := Np.of_nat (ncols x) in
  let theta := map Np.mean x in
  let b := n / (m - 1)
           * Np.sum (map (fun v => v ^ 2)
                         (Np.sub_scalar theta (grand_mean theta mu))) in
  let w := 1 / m * Np.sum (map Np.var x) in
  exists v_hat w',
    gelman_rubin_variances x mu = Ok (v_hat, w')
    /\ w' == w
    /\ v_hat == (n - 1) / n * w + (m + 1) / (m * n) * b.
Proof.
  intros Hm Hn m n theta b w.
  unfold gelman_rubin_variances.
  replace (Z.of_nat (length x) <? 2)%Z with false
    by (symmetry; apply Z.ltb_ge; lia).
  rewrite !float_div_ok by (apply float_of_Z_nonzero; lia).
  simpl bind. do 2 eexists. split; [reflexivity|].
  unfold float_of_Z.
  rewrite inject_Z_mult, inject_Z_plus, !inject_Z_minus.
  change (inject_Z 1) with 1.
  split; reflexivity.
Qed.

Lemma var_nonneg (l : list Q) : 0 <= Np.var l.
Proof.
  unfold Np.var, Np.mean. rewrite length_map.
  assert (Hs : 0 <= Np.sum (map (fun v => (v - Np.sum l / Np.of_nat (length l)) ^ 2) l))
    by (apply sum_map_nonneg; intros v _; apply Qsquare_nonneg).
  assert (Hi : 0 <= / Np.of_nat (length l))
    by (apply Qinv_le_0_compat, of_nat_nonneg).
  unfold Qdiv at 1. now apply Qmult_le_0_compat.
Qed.

Lemma sum_nonneg (l : list Q) : Forall (fun v => 0 <= v) l -> 0 <= Np.sum l.
Proof.
  induction 1 as [|v l Hv _ IH]; simpl; [apply Qle_refl | lra].
Qed.

(** The diagnostic is never below sqrt((n-1)/n): the between-chain term
    only adds to the pooled variance estimate. *)
Theorem gelman_rubin_lower_bound (x : matrix) (mu : option Q) :
  (2 <= length x)%nat -> (1 <= ncols x)%nat ->
  ~ Np.sum (map Np.var x) == 0 ->
  exists r_hat,
    gelman_rubin_diagnostic x mu = Ok r_hat
    /\ (np_sqrt ((Np.of_nat (ncols x) - 1) / Np.of_nat (ncols x))
        <= r_hat)%R.
Proof.
  intros Hm Hn Hw.
  destruct (gelman_rubin_variances_ok x mu Hm Hn)
    as [v_hat [w [Hvw [Hweq Hveq]]]].
  set (m := Np.of_nat (length x)) in *.
  set (n := Np.of_nat (ncols x)) in *.
  set (S := Np.sum (map (fun v => v ^ 2)
                        (Np.sub_scalar (map Np.mean x)
                           (grand_mean (map Np.mean x) mu)))) in *.
  set (V := Np.sum (map Np.var x)) in *.
  assert (Hmpos : 0 < m) by (apply of_nat_pos; lia).
  assert (Hnpos : 0 < n) by (apply of_nat_pos; lia).
  assert (Hm1 : 0 < m - 1).
  { unfold m, Np.of_nat. change 1 with (inject_Z 1).
    rewrite <- inject_Z_minus. change 0 with (inject_Z 0).
    rewrite <- Zlt_Qlt. lia. }
  assert (HS : 0 <= S)
    by (apply sum_map_nonneg; intros v _; apply Qsquare_nonneg).
  assert (HV : 0 < V).
  { assert (H0 : 0 <= V).
    { apply sum_nonneg, Forall_forall. intros v Hv.
      apply in_map_iff in Hv. destruct Hv as [row [<- _]]. apply var_nonneg. }
    destruct (Qlt_le_dec 0 V) as [H|H]; [exact H|].
    exfalso. apply Hw. lra. }
  assert (Hwpos : 0 < w).
  { rewrite Hweq. apply Qmult_lt_0_compat; [|exact HV].
    apply Qlt_shift_div_l; [exact Hmpos | lra]. }
  assert (Hb : 0 <= (m + 1) / (m * n) * (n / (m - 1) * S)).
  { apply Qmult_le_0_compat.
    - apply Qle_shift_div_l; [now apply Qmult_lt_0_compat | lra].
    - apply Qmult_le_0_compat; [|exact HS].
      apply Qle_shift_div_l; [exact Hm1 | lra]. }
  assert (Hq : (n - 1) / n <= v_hat / w).
  { apply Qle_shift_div_l; [exact Hwpos|]. rewrite Hveq, <- Hweq. lra. }
  eexists. split.
  - unfold gelman_rubin_diagnostic. rewrite Hvw. simpl. reflexivity.
  - unfold np_sqrt. apply sqrt_le_1_alt. now apply Qle_Rle.
Qed.

Lemma gelman_rubin_lower_bound_witness :
  let x : matrix := [[1; 3]; [5; 7]] in
  exists r_hat,
    gelman_rubin_diagnostic x None = Ok r_hat
    /\ (np_sqrt ((Np.of_nat (ncols x) - 1) / Np.of_nat (ncols x))
        <= r_hat)%R.
Proof.
  intros x. subst x.
  apply gelman_rubin_lower_bound;
    [simpl; lia | unfold ncols; simpl; lia | discriminate].
Defined.

Lemma sum_permutation (l l' : list Q) :
  Permutation l l' -> Np.sum l == Np.sum l'.
Proof.
  induction 1 as [|v l l' _ IH|u v l|l l' l'' _ IH1 _ IH2]; simpl.
  - reflexivity.
  - now rewrite IH.
  - ring.
  - now rewrite IH1.
Qed.

Lemma grand_mean_permutation (theta theta' : list Q) (mu : option Q) :
  Permutation theta theta' ->
  grand_mean theta mu == grand_mean theta' mu.
Proof.
  intros Hp. unfold grand_mean. destruct (truthy mu); [reflexivity|].
  unfold Np.mean.
  now rewrite (sum_permutation _ _ Hp), (Permutation_length Hp).
Qed.

Lemma squares_permutation (l l' : list Q) (a a' : Q) :
  Permutation l l' -> a == a' ->
  Np.sum (map (fun v => v ^ 2) (Np.sub_scalar l a))
  == Np.sum (map (fun v => v ^ 2) (Np.sub_scalar l' a')).
Proof.
  intros Hp Ha. unfold Np.sub_scalar. rewrite !map_map.
  rewrite (sum_permutation _ _ (Permutation_map _ Hp)).
  apply sum_map_Qeq. intros v _. now rewrite Ha.
Qed.

(** The order of the chains does not matter. *)
Theorem gelman_rubin_permutation (m n : nat) (x x' : matrix)
  (mu : option Q) :
  has_shape m n x -> Permutation x x' ->
  gelman_rubin_diagnostic x mu = gelman_rubin_diagnostic x' mu.
Proof.
  intros Hs Hp.
  assert (Hlen : length x' = length x)
    by (symmetry; now apply Permutation_length).
  destruct (Nat.lt_ge_cases (length x) 2) as [Hlt|Hge].
  - unfold gelman_rubin_diagnostic, gelman_rubin_variances. rewrite Hlen.
    now replace (Z.of_nat (length x) <? 2)%Z with true
      by (symmetry; apply Z.ltb_lt; lia).
  - assert (Hs' : has_shape m n x').
    { destruct Hs as [Hm Hrows]. split; [congruence|].
      now apply (Permutation_Forall Hp). }
    assert (Hm : length x = m) by apply Hs.
    assert (Hc : ncols x = n) by (apply (has_shape_ncols m n); [exact Hs | lia]).
    assert (Hc' : ncols x' = n)
      by (apply (has_shape_ncols m n); [exact Hs' | lia]).
    destruct (Nat.eq_dec n 0) as [Hn0|Hn0].
    + rewrite !gelman_rubin_empty_chains_aux by (congruence || lia).
      reflexivity.
    + destruct (gelman_rubin_variances_ok x mu)
        as [v [w [Hvw [Hw Hv]]]]; [lia | lia |].
      destruct (gelman_rubin_variances_ok x' mu)
        as [v' [w' [Hvw' [Hw' Hv']]]]; [lia | lia |].
      unfold gelman_rubin_diagnostic. rewrite Hvw, Hvw'. simpl.
      unfold np_sqrt. do 2 f_equal. apply Qeq_eqR.
      rewrite Hv, Hw, Hv', Hw', Hlen, Hc, Hc'.
      rewrite (sum_permutation _ _ (Permutation_map Np.var Hp)).
      rewrite (squares_permutation _ _ _ _ (Permutation_map Np.mean Hp)
                 (grand_mean_permutation _ _ mu (Permutation_map Np.mean Hp))).
      reflexivity.
Qed.

Lemma gelman_rubin_permutation_witness :
  gelman_rubin_diagnostic [[1; 3]; [5; 7]; [2; 2]] None
  = gelman_rubin_diagnostic [[5; 7]; [1; 3]; [2; 2]] None.
Proof.
  apply (gelman_rubin_permutation 3 2).
  - split; [reflexivity|]. repeat constructor.
  - apply perm_swap.
Defined.

(** ** The diagnostic under a change of location and scale *)

Lemma sum_map_affine {A : Type} (g : A -> Q) (a c : Q) (l : list A) :
  Np.sum (map (fun u => a * g u + c) l)
  == a * Np.sum (map g l) + Np.of_nat (length l) * c.
Proof.
  induction l as [|u l IH].
  - simpl. unfold Np.of_nat. simpl. ring.
  - cbn [map Np.sum fold_right length].
    fold (Np.sum (map (fun u => a * g u + c) l)). fold (Np.sum (map g l)).
    rewrite IH, of_nat_succ. ring.
Qed.

Lemma mean_affine (a c : Q) (row : list Q) :
  row <> [] ->
  Np.mean (map (fun v => a * v + c) row) == a * Np.mean row + c.
Proof.
  intros Hne. unfold Np.mean. rewrite length_map.
  rewrite (sum_map_affine (fun v => v) a c row), map_id.
  field. apply of_nat_nonzero. destruct row; [contradiction | simpl; lia].
Qed.

Lemma var_affine (a c : Q) (row : list Q) :
  row <> [] ->
  Np.var (map (fun v => a * v + c) row) == a * a * Np.var row.
Proof.
  intros Hne. unfold Np.var.
  pose proof (mean_affine a c row Hne) as Hm.
  unfold Np.mean at 1 3. rewrite !length_map, map_map.
  rewrite (sum_map_Qeq _ (fun v => (a * a) * (v - Np.mean row) ^ 2)).
  - rewrite sum_map_scale. unfold Qdiv. ring.
  - intros v _. rewrite Hm. simpl. ring.
Qed.

Lemma shape_nonempty_rows (m n : nat) (x : matrix) :
  has_shape m n x -> (1 <= n)%nat ->
  forall row, In row x -> row <> [].
Proof.
  intros [_ Hrows] Hn row Hin Hnil. rewrite Forall_forall in Hrows.
  specialize (Hrows row Hin). rewrite Hnil in Hrows. simpl in Hrows. lia.
Qed.

(** Without a reference mean the diagnostic does not change when every
    draw of every chain is rescaled and shifted in the same way. *)
Theorem gelman_rubin_affine (m n : nat) (x : matrix) (a c : Q) :
  has_shape m n x -> (2 <= m)%nat -> (1 <= n)%nat -> ~ a == 0 ->
  gelman_rubin_diagnostic (map (map (fun v => a * v + c)) x) None
  = gelman_rubin_diagnostic x None.
Proof.
  intros Hs Hm Hn Ha.
  assert (Hlen : length x = m) by apply Hs.
  assert (Hc : ncols x = n) by (apply (has_shape_ncols m n); [exact Hs | lia]).
  assert (Hlen' : length (map (map (fun v => a * v + c)) x) = m) by now rewrite length_map.
  assert (Hc' : ncols (map (map (fun v => a * v + c)) x) = n).
  { unfold ncols in *. destruct x as [|row x]; [simpl in Hlen; lia|].
    simpl in *. now rewrite length_map. }
  pose proof (shape_nonempty_rows m n x Hs Hn) as Hrows.
  destruct (gelman_rubin_variances_ok x None)
    as [v [w [Hvw [Hw Hv]]]]; [lia | lia |].
  destruct (gelman_rubin_variances_ok (map (map (fun v => a * v + c)) x) None)
    as [v' [w' [Hvw' [Hw' Hv']]]]; [lia | lia |].
  rewrite Hlen in Hw. rewrite Hlen, Hc in Hv.
  rewrite Hlen' in Hw'. rewrite Hlen', Hc' in Hv'.
  unfold grand_mean in Hv, Hv'. cbn [truthy] in Hv, Hv'.
  (* the per-chain means and variances of the transformed chains *)
  assert (Hvars : Np.sum (map Np.var (map (map (fun v => a * v + c)) x))
                  == a * a * Np.sum (map Np.var x)).
  { rewrite map_map.
    rewrite (sum_map_Qeq _ (fun row => (a * a) * Np.var row)).
    - apply sum_map_scale.
    - intros row Hrow. apply var_affine. now apply Hrows. }
  assert (Hgm : Np.mean (map Np.mean (map (map (fun v => a * v + c)) x))
                == a * Np.mean (map Np.mean x) + c).
  { unfold Np.mean at 1 3. rewrite !length_map, map_map.
    rewrite (sum_map_Qeq _ (fun row => a * Np.mean row + c))
      by (intros row Hrow; apply mean_affine; now apply Hrows).
    rewrite sum_map_affine. field. apply of_nat_nonzero. lia. }
  assert (Hsq : Np.sum (map (fun u => u ^ 2)
                          (Np.sub_scalar (map Np.mean (map (map (fun v => a * v + c)) x))
                             (Np.mean (map Np.mean (map (map (fun v => a * v + c)) x)))))
                == a * a
                   * Np.sum (map (fun u => u ^ 2)
                               (Np.sub_scalar (map Np.mean x)
                                  (Np.mean (map Np.mean x))))).
  { set (gm' := Np.mean (map Np.mean (map (map (fun v => a * v + c)) x))) in *.
    set (gm := Np.mean (map Np.mean x)) in *.
    unfold Np.sub_scalar. rewrite !map_map.
    rewrite (sum_map_Qeq _ (fun row => (a * a) * (Np.mean row - gm) ^ 2)).
    - apply sum_map_scale.
    - intros row Hrow. cbv beta. rewrite Hgm.
      rewrite (mean_affine a c row) by now apply Hrows.
      simpl. ring. }
  assert (Hw2 : w' == a * a * w).
  { rewrite Hw', Hw, Hvars. unfold Qdiv. ring. }
  assert (Hv2 : v' == a * a * v).
  { rewrite Hv', Hv, Hvars, Hsq. unfold Qdiv. ring. }
  unfold gelman_rubin_diagnostic. rewrite Hvw, Hvw'. simpl.
  unfold np_sqrt. do 2 f_equal. apply Qeq_eqR.
  rewrite Hv2, Hw2. unfold Qdiv. rewrite Qinv_mult_distr.
  assert (Haa : ~ a * a == 0).
  { intros H. destruct (Qmult_integral _ _ H); contradiction. }
  transitivity (a * a * / (a * a) * (v * / w)); [ring|].
  rewrite Qmult_inv_r by exact Haa. ring.
Qed.

Lemma gelman_rubin_affine_witness :
  gelman_rubin_diagnostic
    (map (map (fun v => 3 * v + 5)) [[1; 3]; [5; 7]; [2; 2]]) None
  = gelman_rubin_diagnostic [[1; 3]; [5; 7]; [2; 2]] None.
Proof.
  apply (gelman_rubin_affine 3 2); try lia; try discriminate.
  split; [reflexivity|]. repeat constructor.
Defined.

(** ** Further properties of the batched estimator *)

Lemma effective_sample_size_unfold (b t d : nat) (x : tensor)
  (mu var : option (list Q)) :
  has_shape3 b t d x -> (1 <= b)%nat -> (1 <= t)%nat ->
  effective_sample_size x mu var
  = map (fun e => Np.of_nat t / e)
        (ess_lag_loop x (mean_used x mu) (var_used x var) t d
                      (seq 1 (t - 1)) (repeat 1 d)).
Proof.
  intros H Hb Ht. unfold effective_sample_size.
  now rewrite (has_shape3_shape b t d x H Hb Ht).
Qed.

(** When the chains hold a single draw, or no coordinate is above the
    threshold at lag 1, every entry of the result is [t]. *)
Theorem effective_sample_size_no_significant_lag (b t d : nat) (x : tensor)
  (mu var : option (list Q)) :
  has_shape3 b t d x -> (1 <= b)%nat -> (1 <= t)%nat ->
  t = 1%nat
  \/ count_above (auto_correlation_time x 1 (mean_used x mu) (var_used x var))
     = 0%nat ->
  effective_sample_size x mu var = repeat (Np.of_nat t / 1) d.
Proof.
  intros H Hb Ht Hstop.
  rewrite (effective_sample_size_unfold b t d x mu var H Hb Ht).
  assert (Hloop : ess_lag_loop x (mean_used x mu) (var_used x var) t d
                               (seq 1 (t - 1)) (repeat 1 d)
                  = repeat 1 d).
  { destruct Hstop as [->|Hc]; [reflexivity|].
    destruct (t - 1)%nat as [|k]; [reflexivity|].
    cbn [seq ess_lag_loop]. now rewrite Hc. }
  rewrite Hloop. apply map_repeat.
Qed.

Lemma effective_sample_size_no_significant_lag_witness :
  effective_sample_size [[[1; 5]]; [[2; 7]]] None None
  = repeat (Np.of_nat 1 / 1) 2.
Proof.
  apply (effective_sample_size_no_significant_lag 2 1 2); try lia.
  split; [reflexivity|]. repeat constructor.
Defined.

(** A coordinate whose autocorrelation is not above the threshold at any
    lag of the list keeps its accumulator. *)
Lemma ess_lag_loop_untouched (x : tensor) (mu var : list Q) (t d j : nat) :
  forall lags ess_,
    (j < length ess_)%nat ->
    (forall s, In s lags ->
       Qgt_bool (nth j (auto_correlation_time x s mu var) 0) threshold
       = false) ->
    nth j (ess_lag_loop x mu var t d lags ess_) 0 = nth j ess_ 0.
Proof.
  induction lags as [|s lags IH]; intros ess_ Hj Hle; [reflexivity|].
  cbn [ess_lag_loop].
  destruct (count_above _ =? 0)%nat; [reflexivity|].
  rewrite IH.
  - rewrite ess_update_nth by (apply seq_NoDup || exact Hj).
    rewrite (Hle s) by now left. now rewrite andb_false_r.
  - now rewrite ess_update_length.
  - intros s' Hs'. apply Hle. now right.
Qed.

(** A coordinate whose batch-averaged autocorrelation never exceeds 0.05
    has effective sample size [t], whatever the other coordinates do. *)
Theorem effective_sample_size_quiet_coordinate (b t d : nat) (x : tensor)
  (mu var : option (list Q)) (j : nat) :
  has_shape3 b t d x -> (1 <= b)%nat -> (1 <= t)%nat -> (j < d)%nat ->
  (forall s, (1 <= s < t)%nat ->
     nth j (auto_correlation_time x s (mean_used x mu) (var_used x var)) 0
     <= threshold) ->
  nth j (effective_sample_size x mu var) 0 = Np.of_nat t / 1.
Proof.
  intros H Hb Ht Hj Hquiet.
  rewrite (effective_sample_size_unfold b t d x mu var H Hb Ht).
  rewrite (nth_map_lt _ _ j 0)
    by now rewrite ess_lag_loop_length, repeat_length.
  rewrite ess_lag_loop_untouched.
  - now rewrite nth_repeat_lt.
  - now rewrite repeat_length.
  - intros s Hs. apply in_seq in Hs.
    destruct (Qgt_bool _ threshold) eqn:E; [|reflexivity].
    apply Qgt_bool_iff in E.
    assert (Hle := Hquiet s ltac:(lia)). lra.
Qed.

Lemma effective_sample_size_quiet_coordinate_witness :
  let x : tensor := [[[1; 1]; [2; 1]; [3; 2]; [4; 1]];
                     [[2; 0]; [3; 1]; [3; 0]; [5; 1]]] in
  nth 0 (effective_sample_size x (Some [0; 0]) (Some [1000; 1])) 0
  = Np.of_nat 4 / 1.
Proof.
  intros x. apply (effective_sample_size_quiet_coordinate 2 4 2); try lia.
  - split; [reflexivity|]. repeat constructor.
  - intros s Hs.
    assert (Hcases : s = 1%nat \/ s = 2%nat \/ s = 3%nat) by lia.
    destruct Hcases as [->|[->| ->]]; vm_compute; intros Hc; discriminate Hc.
Defined.

Lemma ess_update_monotone (p : list Q) (s t d j : nat) (ess_ : list Q) :
  (1 <= s < t)%nat -> (j < length ess_)%nat ->
  nth j ess_ 0 <= nth j (ess_update (seq 0 d) p s t ess_) 0.
Proof.
  intros Hs Hj. rewrite ess_update_nth by (apply seq_NoDup || exact Hj).
  destruct (existsb (Nat.eqb j) (seq 0 d)
            && Qgt_bool (nth j p 0) threshold) eqn:E; [|apply Qle_refl].
  apply andb_true_iff in E. destruct E as [_ Hp].
  pose proof (addition_pos _ s t Hp Hs) as Hpos. lra.
Qed.

Lemma ess_lag_loop_monotone (x : tensor) (mu var : list Q) (t d j : nat) :
  forall lags ess_,
    Forall (fun s => (1 <= s < t)%nat) lags -> (j < length ess_)%nat ->
    nth j ess_ 0 <= nth j (ess_lag_loop x mu var t d lags ess_) 0.
Proof.
  induction lags as [|s lags IH]; intros ess_ Hl Hj; [apply Qle_refl|].
  pose proof (Forall_inv Hl) as Hs. cbv beta in Hs.
  pose proof (Forall_inv_tail Hl) as Hl'.
  cbn [ess_lag_loop].
  destruct (count_above _ =? 0)%nat; [apply Qle_refl|].
  apply Qle_trans with (nth j (ess_update (seq 0 d)
                                 (auto_correlation_time x s mu var) s t ess_) 0).
  - now apply ess_update_monotone.
  - apply IH; [exact Hl' | now rewrite ess_update_length].
Qed.

(** A coordinate whose autocorrelation at lag 1 exceeds 0.05 has an
    effective sample size strictly below [t]. *)
Theorem effective_sample_size_significant_coordinate (b t d : nat)
  (x : tensor) (mu var : option (list Q)) (j : nat) :
  has_shape3 b t d x -> (1 <= b)%nat -> (2 <= t)%nat -> (j < d)%nat ->
  threshold
  < nth j (auto_correlation_time x 1 (mean_used x mu) (var_used x var)) 0 ->
  nth j (effective_sample_size x mu var) 0 < Np.of_nat t.
Proof.
  intros H Hb Ht Hj Hsig.
  rewrite (effective_sample_size_unfold b t d x mu var H Hb) by lia.
  rewrite (nth_map_lt _ _ j 0)
    by now rewrite ess_lag_loop_length, repeat_length.
  set (mu' := mean_used x mu) in *. set (var' := var_used x var) in *.
  set (p := auto_correlation_time x 1 mu' var') in *.
  assert (Hgt : Qgt_bool (nth j p 0) threshold = true)
    by now apply Qgt_bool_iff.
  assert (Hjp : (j < length p)%nat).
  { destruct (Nat.lt_ge_cases j (length p)) as [Hl|Hl]; [exact Hl|].
    rewrite nth_overflow in Hsig by exact Hl.
    exfalso. revert Hsig. apply Qle_not_lt. discriminate. }
  assert (Hcount : (count_above p =? 0)%nat = false).
  { apply Nat.eqb_neq. unfold count_above.
    assert (Hin : In (nth j p 0) (filter (fun v => Qgt_bool v threshold) p))
      by (apply filter_In; split; [now apply nth_In | exact Hgt]).
    destruct (filter (fun v => Qgt_bool v threshold) p);
      [contradiction | discriminate]. }
  replace (t - 1)%nat with (S (t - 2)) by lia.
  cbn [seq ess_lag_loop]. fold p. rewrite Hcount.
  set (e1 := ess_update (seq 0 d) p 1 t (repeat 1 d)).
  assert (Hlen1 : length e1 = d)
    by (unfold e1; now rewrite ess_update_length, repeat_length).
  assert (He1 : 1 < nth j e1 0).
  { unfold e1. rewrite ess_update_nth
      by (apply seq_NoDup || now rewrite repeat_length).
    rewrite existsb_seq by exact Hj. rewrite Hgt. cbn [andb].
    rewrite nth_repeat_lt by exact Hj.
    pose proof (addition_pos _ 1 t Hgt ltac:(lia)) as Hpos. lra. }
  assert (Hmono := ess_lag_loop_monotone x mu' var' t d j
                     (seq 2 (t - 2)) e1).
  assert (Hacc : 1 < nth j (ess_lag_loop x mu' var' t d (seq 2 (t - 2)) e1) 0).
  { apply Qlt_le_trans with (nth j e1 0); [exact He1|].
    apply Hmono; [|lia].
    apply Forall_forall. intros s Hs. apply in_seq in Hs. lia. }
  assert (Htpos : 0 < Np.of_nat t) by (apply of_nat_pos; lia).
  apply Qlt_shift_div_r; [lra | nra].
Qed.

Lemma effective_sample_size_significant_coordinate_witness :
  let x : tensor := [[[1; 1]; [2; 1]; [3; 2]; [4; 1]];
                     [[2; 0]; [3; 1]; [3; 0]; [5; 1]]] in
  nth 0 (effective_sample_size x None None) 0 < Np.of_nat 4.
Proof.
  intros x. apply (effective_sample_size_significant_coordinate 2 4 2);
    try lia.
  - split; [reflexivity|]. repeat constructor.
  - now vm_compute.
Defined.

(** ** The heat map of discrete-state samples *)

Lemma setitem2_ok (a : matrix) (r i : nat) (v : Q) :
  (r < length a)%nat -> (i < length (nth r a []))%nat ->
  setitem2 a r i v = Ok (setitem a r (setitem (nth r a []) i v)).
Proof.
  intros Hr Hi. unfold setitem2.
  replace (r <? length a)%nat with true by (symmetry; apply Nat.ltb_lt; lia).
  now replace (i <? length (nth r a []))%nat with true
    by (symmetry; apply Nat.ltb_lt; lia).
Qed.

Lemma setitem2_cases (a : matrix) (r i : nat) (v : Q) :
  setitem2 a r i v = Ok (setitem a r (setitem (nth r a []) i v))
  \/ setitem2 a r i v = Raise IndexError.
Proof. unfold setitem2. destruct (_ && _); auto. Qed.

Lemma setitem2_row_error (a : matrix) (r i : nat) (v : Q) :
  (length a <= r)%nat -> setitem2 a r i v = Raise IndexError.
Proof.
  intros Hr. unfold setitem2.
  now replace (r <? length a)%nat with false
    by (symmetry; apply Nat.ltb_ge; lia).
Qed.

Lemma setitem_row_shape (R C : nat) (a : matrix) (r i : nat) (v : Q) :
  has_shape R C a ->
  has_shape R C (setitem a r (setitem (nth r a []) i v)).
Proof.
  intros [HR Hrows]. split; [now rewrite length_setitem|].
  apply Forall_setitem; [exact Hrows|]. intros Hr.
  rewrite length_setitem. rewrite Forall_forall in Hrows.
  now apply Hrows, nth_In.
Qed.

Lemma entry_setitem (a : matrix) (r i : nat) (v : Q) (r' i' : nat) :
  (r < length a)%nat -> (i < length (nth r a []))%nat ->
  entry (setitem a r (setitem (nth r a []) i v)) r' i'
  = if ((r' =? r) && (i' =? i))%nat then v else entry a r' i'.
Proof.
  intros Hr Hi. unfold entry.
  destruct (Nat.eqb_spec r' r) as [->|Hne]; cbn [andb].
  - rewrite nth_setitem_eq by exact Hr.
    destruct (Nat.eqb_spec i' i) as [->|Hne].
    + now apply nth_setitem_eq.
    + apply nth_setitem_neq. congruence.
  - rewrite nth_setitem_neq by congruence. reflexivity.
Qed.

(** One pass of the loop: the three stores into column [i]. *)
Lemma heatmap_step (R C : nat) (samples h : matrix) (i : nat)
  (idx : list nat) :
  has_shape R C h -> (3 <= R)%nat -> (i < C)%nat ->
  (i < ncols samples)%nat ->
  exists h',
    heatmap_loop samples (i :: idx) h = heatmap_loop samples idx h'
    /\ has_shape R C h'
    /\ forall s i',
         entry h' s i'
         = if ((s <? 3) && (i' =? i))%nat
           then mean_eq (map (fun row => nth i row 0) samples) (Np.of_nat s)
           else entry h s i'.
Proof.
  intros Hh HR Hi Hc.
  set (col := map (fun row => nth i row 0) samples).
  assert (Hrow : forall (a : matrix) r,
             has_shape R C a -> (r < R)%nat ->
             (r < length a)%nat /\ (i < length (nth r a []))%nat).
  { intros a r [Hlen Hrows] Hr. split; [lia|].
    rewrite Forall_forall in Hrows.
    rewrite (Hrows (nth r a [])) by (apply nth_In; lia). exact Hi. }
  set (h1 := setitem h 0 (setitem (nth 0 h []) i (mean_eq col 0))).
  set (h2 := setitem h1 1 (setitem (nth 1 h1 []) i (mean_eq col 1))).
  set (h3 := setitem h2 2 (setitem (nth 2 h2 []) i (mean_eq col 2))).
  assert (H1 : has_shape R C h1) by now apply setitem_row_shape.
  assert (H2 : has_shape R C h2) by now apply setitem_row_shape.
  assert (H3 : has_shape R C h3) by now apply setitem_row_shape.
  destruct (Hrow h 0%nat Hh ltac:(lia)) as [Ha0 Hb0].
  destruct (Hrow h1 1%nat H1 ltac:(lia)) as [Ha1 Hb1].
  destruct (Hrow h2 2%nat H2 ltac:(lia)) as [Ha2 Hb2].
  exists h3. split; [|split; [exact H3|]].
  - cbn [heatmap_loop]. rewrite (column_ok samples i Hc). fold col.
    cbn [bind]. rewrite (setitem2_ok h 0 i _ Ha0 Hb0). cbn [bind]. fold h1.
    rewrite (setitem2_ok h1 1 i _ Ha1 Hb1). cbn [bind]. fold h2.
    rewrite (setitem2_ok h2 2 i _ Ha2 Hb2). cbn [bind]. reflexivity.
  - intros s i'. unfold h3.
    rewrite (entry_setitem h2 2 i _ s i' Ha2 Hb2). unfold h2.
    rewrite (entry_setitem h1 1 i _ s i' Ha1 Hb1). unfold h1.
    rewrite (entry_setitem h 0 i _ s i' Ha0 Hb0).
    destruct (Nat.eqb_spec i' i) as [->|Hne];
      rewrite ?andb_false_r, ?andb_true_r; [|reflexivity].
    destruct s as [|[|[|s]]]; reflexivity.
Qed.

(** The loop over columns that all exist fills exactly their entries in the
    first three rows. *)
Lemma heatmap_loop_ok (R C : nat) (samples : matrix) :
  forall idx h,
    has_shape R C h -> (3 <= R)%nat ->
    (forall i, In i idx -> (i < C)%nat /\ (i < ncols samples)%nat) ->
    exists h',
      heatmap_loop samples idx h = Ok h'
      /\ has_shape R C h'
      /\ forall s i,
           entry h' s i
           = if ((s <? 3)%nat && existsb (Nat.eqb i) idx)%bool
             then mean_eq (map (fun row => nth i row 0) samples)
                          (Np.of_nat s)
             else entry h s i.
Proof.
  induction idx as [|j idx IH]; intros h Hh HR Hidx.
  - exists h. split; [reflexivity|]. split; [exact Hh|].
    intros s i. now rewrite andb_false_r.
  - destruct (Hidx j (or_introl eq_refl)) as [HjC Hjc].
    destruct (heatmap_step R C samples h j idx Hh HR HjC Hjc)
      as [h1 [Hstep [Hh1 He1]]].
    destruct (IH h1 Hh1 HR) as [h' [Hloop [Hh' He']]].
    { intros i Hi. apply Hidx. now right. }
    exists h'. split; [now rewrite Hstep|]. split; [exact Hh'|].
    intros s i. rewrite He', He1. cbn [existsb].
    destruct (s <? 3)%nat; cbn [andb]; [|reflexivity].
    destruct (existsb (Nat.eqb i) idx); [now rewrite orb_true_r|].
    rewrite orb_false_r.
    destruct (Nat.eqb_spec i j) as [->|Hne]; reflexivity.
Qed.

(** The loop raises nothing but [IndexError]. *)
Lemma heatmap_loop_cases (samples : matrix) :
  forall idx h,
    (exists h', heatmap_loop samples idx h = Ok h')
    \/ heatmap_loop samples idx h = Raise IndexError.
Proof.
  induction idx as [|i idx IH]; intros h; [left; now exists h|].
  cbn [heatmap_loop]. unfold column.
  destruct (i <? ncols samples)%nat; cbn [bind]; [|now right].
  repeat match goal with
         | |- context [setitem2 ?a ?r ?c ?v] =>
             destruct (setitem2_cases a r c v) as [-> | ->]; cbn [bind];
             [|now right]
         end.
  apply IH.
Qed.

(** With fewer than three rows the first pass fails. *)
Lemma heatmap_loop_few_rows (R C : nat) (samples h : matrix) (i : nat)
  (idx : list nat) :
  has_shape R C h -> (R < 3)%nat ->
  heatmap_loop samples (i :: idx) h = Raise IndexError.
Proof.
  intros [HR _] Hlt. cbn [heatmap_loop]. unfold column.
  destruct (i <? ncols samples)%nat; cbn [bind]; [|reflexivity].
  destruct (setitem2_cases h 0 i
              (mean_eq (map (fun row => nth i row 0) samples) 0))
    as [E0 | ->]; [|reflexivity].
  destruct (Nat.eq_dec R 0) as [HR0|HR0].
  { rewrite setitem2_row_error by lia. reflexivity. }
  rewrite E0. cbn [bind].
  match goal with
  | |- context [setitem2 ?a 1 ?c ?v] =>
      destruct (setitem2_cases a 1 c v) as [E1 | ->]; [|reflexivity];
      destruct (Nat.eq_dec R 1) as [HR1|HR1];
      [rewrite setitem2_row_error by (rewrite length_setitem; lia);
       reflexivity|];
      rewrite E1; cbn [bind]
  end.
  rewrite setitem2_row_error by (rewrite !length_setitem; lia).
  reflexivity.
Qed.

(** With three rows or more the loop fails at the first index that is not
    a column of [samples]. *)
Lemma heatmap_loop_missing_column (R C : nat) (samples : matrix) :
  forall idx h,
    has_shape R C h -> (3 <= R)%nat ->
    (forall i, In i idx -> (i < C)%nat) ->
    (exists i, In i idx /\ (ncols samples <= i)%nat) ->
    heatmap_loop samples idx h = Raise IndexError.
Proof.
  induction idx as [|j idx IH]; intros h Hh HR HC [i [Hin Hi]];
    [contradiction|].
  destruct (Nat.lt_ge_cases j (ncols samples)) as [Hlt|Hge].
  - destruct (heatmap_step R C samples h j idx Hh HR
                (HC j (or_introl eq_refl)) Hlt) as [h1 [Hstep [Hh1 _]]].
    rewrite Hstep. apply IH; try assumption.
    + intros i' Hi'. apply HC. now right.
    + exists i. split; [|exact Hi].
      destruct Hin as [->|Hin]; [lia | exact Hin].
  - cbn [heatmap_loop]. now rewrite column_out_of_range.
Qed.

Lemma zeros_shape (R C : nat) : has_shape R C (repeat (repeat 0 C) R).
Proof.
  split; [apply repeat_length|]. apply Forall_forall. intros row Hrow.
  apply repeat_spec in Hrow. subst. apply repeat_length.
Qed.

Lemma entry_zeros (R C s i : nat) : entry (repeat (repeat 0 C) R) s i = 0.
Proof.
  unfold entry.
  destruct (Nat.lt_ge_cases s R) as [Hs|Hs].
  - rewrite nth_repeat_lt by exact Hs.
    destruct (Nat.lt_ge_cases i C) as [Hi|Hi].
    + now apply nth_repeat_lt.
    + apply nth_overflow. now rewrite repeat_length.
  - rewrite (nth_overflow (repeat (repeat 0 C) R))
      by now rewrite repeat_length.
    now destruct i.
Qed.

(** What [samples_heatmap] raises: [ValueError] for a negative dimension,
    [IndexError] when a column is to be filled and the heat map has fewer
    than three rows or the samples fewer than [T + 1] columns; with no
    column to fill it returns the empty rows. *)
Theorem samples_heatmap_errors (num_state T : Z) (samples : matrix) :
  samples <> [] ->
  ((num_state < 0 \/ T + 1 < 0)%Z ->
   samples_heatmap num_state T samples = Raise ValueError)
  /\ ((0 <= num_state)%Z -> (0 < T + 1)%Z ->
      (num_state < 3 \/ Z.of_nat (ncols samples) < T + 1)%Z ->
      samples_heatmap num_state T samples = Raise IndexError)
  /\ ((0 <= num_state)%Z -> (T + 1 = 0)%Z ->
      samples_heatmap num_state T samples
      = Ok (repeat [] (Z.to_nat num_state))).
Proof.
  intros _. unfold samples_heatmap, np_zeros2. split; [|split].
  - intros Hneg.
    assert (E : ((num_state <? 0) || (T + 1 <? 0))%Z = true).
    { apply orb_true_iff. destruct Hneg; [left | right];
        apply Z.ltb_lt; lia. }
    now rewrite E.
  - intros Hn HT Hbad.
    assert (E : ((num_state <? 0) || (T + 1 <? 0))%Z = false).
    { apply orb_false_iff. split; apply Z.ltb_ge; lia. }
    rewrite E. cbn [bind].
    set (R := Z.to_nat num_state). set (C := Z.to_nat (T + 1)).
    destruct (Nat.lt_ge_cases R 3) as [HR|HR].
    + assert (Hseq : seq 0 C = 0%nat :: seq 1 (C - 1)).
      { destruct C as [|C'] eqn:EC; [unfold C in EC; lia|].
        replace (S C' - 1)%nat with C' by lia. reflexivity. }
      rewrite Hseq.
      apply (heatmap_loop_few_rows R C); [apply zeros_shape | exact HR].
    + apply (heatmap_loop_missing_column R C);
        [apply zeros_shape | exact HR | |].
      * intros i Hi. apply in_seq in Hi. lia.
      * exists (ncols samples). split; [apply in_seq; unfold R, C in *; lia|].
        lia.
  - intros Hn HT.
    assert (E : ((num_state <? 0) || (T + 1 <? 0))%Z = false).
    { apply orb_false_iff. split; apply Z.ltb_ge; lia. }
    rewrite E, HT. reflexivity.
Qed.

Lemma samples_heatmap_errors_witness :
  let samples : matrix := [[0; 1; 2]; [1; 1; 0]] in
  ((2 < 0 \/ 2 + 1 < 0)%Z ->
   samples_heatmap 2 2 samples = Raise ValueError)
  /\ ((0 <= 2)%Z -> (0 < 2 + 1)%Z ->
      (2 < 3 \/ Z.of_nat (ncols samples) < 2 + 1)%Z ->
      samples_heatmap 2 2 samples = Raise IndexError)
  /\ ((0 <= 2)%Z -> (2 + 1 = 0)%Z ->
      samples_heatmap 2 2 samples = Ok (repeat [] (Z.to_nat 2))).
Proof. intros samples. apply samples_heatmap_errors. discriminate. Defined.

Lemma existsb_seq_ltb (i C : nat) :
  existsb (Nat.eqb i) (seq 0 C) = (i <? C)%nat.
Proof.
  destruct (Nat.ltb_spec i C) as [Hlt|Hge].
  - now apply existsb_seq.
  - destruct (existsb (Nat.eqb i) (seq 0 C)) eqn:E; [|reflexivity].
    apply existsb_exists in E. destruct E as [j [Hj Hij]].
    apply in_seq in Hj. apply Nat.eqb_eq in Hij. lia.
Qed.

(** With at least three rows and enough sample columns, the heat map has
    [num_state] rows of [T + 1] entries: row [s < 3] holds, for each column
    [i <= T], the fraction of the samples whose coordinate [i] equals [s];
    every other entry is zero. *)
Theorem samples_heatmap_entries (num_state T : Z) (samples : matrix) :
  (3 <= num_state)%Z -> (0 <= T + 1 <= Z.of_nat (ncols samples))%Z ->
  exists heatmap,
    samples_heatmap num_state T samples = Ok heatmap
    /\ has_shape (Z.to_nat num_state) (Z.to_nat (T + 1)) heatmap
    /\ forall s i,
         entry heatmap s i
         = if ((s <? 3) && (i <? Z.to_nat (T + 1)))%nat
           then mean_eq (map (fun row => nth i row 0) samples) (Np.of_nat s)
           else 0.
Proof.
  intros Hn HT. unfold samples_heatmap, np_zeros2.
  assert (E : ((num_state <? 0) || (T + 1 <? 0))%Z = false).
  { apply orb_false_iff. split; apply Z.ltb_ge; lia. }
  rewrite E. cbn [bind].
  set (R := Z.to_nat num_state). set (C := Z.to_nat (T + 1)).
  destruct (heatmap_loop_ok R C samples (seq 0 C) (repeat (repeat 0 C) R))
    as [h [Hloop [Hh He]]].
  - apply zeros_shape.
  - unfold R. lia.
  - intros i Hi. apply in_seq in Hi. unfold C in *. lia.
  - exists h. split; [exact Hloop|]. split; [exact Hh|].
    intros s i. now rewrite He, existsb_seq_ltb, entry_zeros.
Qed.

Lemma samples_heatmap_entries_witness :
  let samples : matrix := [[0; 1; 2]; [1; 1; 0]; [2; 1; 0]; [0; 1; 1]] in
  exists heatmap,
    samples_heatmap 4 1 samples = Ok heatmap
    /\ has_shape (Z.to_nat 4) (Z.to_nat (1 + 1)) heatmap
    /\ forall s i,
         entry heatmap s i
         = if ((s <? 3) && (i <? Z.to_nat (1 + 1)))%nat
           then mean_eq (map (fun row => nth i row 0) samples) (Np.of_nat s)
           else 0.
Proof.
  intros samples. apply samples_heatmap_entries; [lia|].
  unfold samples, ncols. simpl. lia.
Defined.

Lemma indicator_sum_bounds (s : Q) (col : list Q) :
  0 <= Np.sum (map (fun v => if Qeq_bool v s then 1 else 0) col)
  /\ Np.sum (map (fun v => if Qeq_bool v s then 1 else 0) col)
     <= Np.of_nat (length col).
Proof.
  induction col as [|v col [IH0 IH1]].
  - simpl. split; [apply Qle_refl | discriminate].
  - cbn [map Np.sum fold_right length].
    fold (Np.sum (map (fun v => if Qeq_bool v s then 1 else 0) col)).
    rewrite of_nat_succ.
    destruct (Qeq_bool v s); split; lra.
Qed.

Lemma mean_eq_bounds (col : list Q) (s : Q) :
  0 <= mean_eq col s <= 1.
Proof.
  unfold mean_eq, Np.mean. rewrite length_map.
  destruct (indicator_sum_bounds s col) as [H0 H1].
  destruct col as [|v col].
  - simpl. split; discriminate.
  - assert (Hpos : 0 < Np.of_nat (length (v :: col)))
      by (apply of_nat_pos; simpl; lia).
    split.
    + apply Qle_shift_div_l; [exact Hpos | lra].
    + apply Qle_shift_div_r; [exact Hpos | lra].
Qed.

Lemma indicator_sum_states (col : list Q) :
  Forall is_state col ->
  Np.sum (map (fun v => if Qeq_bool v 0 then 1 else 0) col)
  + Np.sum (map (fun v => if Qeq_bool v 1 then 1 else 0) col)
  + Np.sum (map (fun v => if Qeq_bool v 2 then 1 else 0) col)
  == Np.of_nat (length col).
Proof.
  induction 1 as [|v col Hv _ IH].
  - reflexivity.
  - cbn [map Np.sum fold_right length]. rewrite of_nat_succ, <- IH.
    assert (Hone : (if Qeq_bool v 0 then 1 else 0)
                   + (if Qeq_bool v 1 then 1 else 0)
                   + (if Qeq_bool v 2 then 1 else 0) == 1).
    { destruct Hv as [Hv|[Hv|Hv]];
        rewrite !(Qeqb_comp _ _ Hv _ _ (Qeq_refl _)); reflexivity. }
    unfold Np.sum in *. lra.
Qed.

Lemma mean_eq_states (col : list Q) :
  col <> [] -> Forall is_state col ->
  mean_eq col 0 + mean_eq col 1 + mean_eq col 2 == 1.
Proof.
  intros Hne Hst. unfold mean_eq, Np.mean. rewrite !length_map.
  pose proof (indicator_sum_states col Hst) as Hsum.
  assert (Hn : ~ Np.of_nat (length col) == 0).
  { apply of_nat_nonzero. destruct col; [contradiction | simpl; lia]. }
  set (n := Np.of_nat (length col)) in *.
  set (s0 := Np.sum (map (fun v => if Qeq_bool v 0 then 1 else 0) col)) in *.
  set (s1 := Np.sum (map (fun v => if Qeq_bool v 1 then 1 else 0) col)) in *.
  set (s2 := Np.sum (map (fun v => if Qeq_bool v 2 then 1 else 0) col)) in *.
  setoid_replace (s0 / n + s1 / n + s2 / n) with ((s0 + s1 + s2) / n)
    by (field; exact Hn).
  rewrite Hsum. field. exact Hn.
Qed.

(** Every entry of the heat map is a fraction between 0 and 1, and when
    every sample is one of the states 0, 1, 2 each filled column adds up to
    one over the three rows. *)
Theorem samples_heatmap_distribution (num_state T : Z) (samples : matrix) :
  (3 <= num_state)%Z -> (0 <= T + 1 <= Z.of_nat (ncols samples))%Z ->
  exists heatmap,
    samples_heatmap num_state T samples = Ok heatmap
    /\ (forall s i, 0 <= entry heatmap s i <= 1)
    /\ (Forall (Forall is_state) samples ->
        forall i, (Z.of_nat i <= T)%Z ->
          entry heatmap 0 i + entry heatmap 1 i + entry heatmap 2 i == 1).
Proof.
  intros Hn HT.
  assert (Hloop : exists h,
             samples_heatmap num_state T samples = Ok h
             /\ forall s i,
                  entry h s i
                  = if ((s <? 3) && (i <? Z.to_nat (T + 1)))%nat
                    then mean_eq (map (fun row => nth i row 0) samples)
                                 (Np.of_nat s)
                    else 0).
  { unfold samples_heatmap, np_zeros2.
    assert (E : ((num_state <? 0) || (T + 1 <? 0))%Z = false).
    { apply orb_false_iff. split; apply Z.ltb_ge; lia. }
    rewrite E. cbn [bind].
    set (R := Z.to_nat num_state). set (C := Z.to_nat (T + 1)).
    destruct (heatmap_loop_ok R C samples (seq 0 C) (repeat (repeat 0 C) R))
      as [h [Hl [_ He]]].
    - apply zeros_shape.
    - unfold R. lia.
    - intros i Hi. apply in_seq in Hi. unfold C in *. lia.
    - exists h. split; [exact Hl|].
      intros s i. now rewrite He, existsb_seq_ltb, entry_zeros. }
  destruct Hloop as [h [Hok He]]. exists h. split; [exact Hok|]. split.
  - intros s i. rewrite He.
    destruct ((s <? 3) && (i <? Z.to_nat (T + 1)))%nat.
    + apply mean_eq_bounds.
    + split; discriminate.
  - intros Hst i Hi. rewrite !He.
    replace (i <? Z.to_nat (T + 1))%nat with true
      by (symmetry; apply Nat.ltb_lt; lia).
    cbn [Nat.ltb Nat.leb andb].
    apply mean_eq_states.
    + destruct samples as [|row samples]; [|discriminate].
      unfold ncols in HT. simpl in HT. lia.
    + apply Forall_forall. intros v Hv. apply in_map_iff in Hv.
      destruct Hv as [row [<- Hrow]].
      rewrite Forall_forall in Hst. specialize (Hst row Hrow).
      destruct (Nat.lt_ge_cases i (length row)) as [Hl|Hl].
      * rewrite Forall_forall in Hst. now apply Hst, nth_In.
      * rewrite nth_overflow by exact Hl. left. reflexivity.
Qed.

Lemma samples_heatmap_distribution_witness :
  let samples : matrix := [[0; 1; 2]; [1; 1; 0]; [2; 1; 0]; [0; 1; 1]] in
  exists heatmap,
    samples_heatmap 3 2 samples = Ok heatmap
    /\ (forall s i, 0 <= entry heatmap s i <= 1)
    /\ (Forall (Forall is_state) samples ->
        forall i, (Z.of_nat i <= 2)%Z ->
          entry heatmap 0 i + entry heatmap 1 i + entry heatmap 2 i == 1).
Proof.
  intros samples. apply samples_heatmap_distribution; [lia|].
  unfold samples, ncols. simpl. lia.
Defined.

(** ** The squared distance between two matrices *)

Lemma sum_Forall2 (l l' : list Q) :
  Forall2 Qeq l l' -> Np.sum l == Np.sum l'.
Proof.
  induction 1 as [|u v l l' Huv _ IH]; simpl; [reflexivity|].
  fold (Np.sum l). fold (Np.sum l'). now rewrite Huv, IH.
Qed.

Lemma sum_squares_zero (l : list Q) :
  Np.sum (map (fun v => v ^ 2) l) == 0 <-> Forall (fun v => v == 0) l.
Proof.
  induction l as [|v l IH]; cbn [map Np.sum fold_right].
  - split; [constructor | reflexivity].
  - fold (Np.sum (map (fun v => v ^ 2) l)).
    assert (H1 : 0 <= v ^ 2) by apply Qsquare_nonneg.
    assert (H2 : 0 <= Np.sum (map (fun v => v ^ 2) l))
      by (apply sum_map_nonneg; intros u _; apply Qsquare_nonneg).
    split.
    + intros H. constructor.
      * assert (Hv : v ^ 2 == 0) by lra.
        simpl in Hv. destruct (Qmult_integral _ _ Hv); assumption.
      * apply IH. lra.
    + intros H. inversion H as [|? ? Hv Hl]; subst.
      apply IH in Hl. rewrite Hl, Hv. reflexivity.
Qed.

Lemma row_sub_zero (ra rb : list Q) :
  length ra = length rb ->
  (Forall (fun v => v == 0) (Np.sub ra rb) <-> Forall2 Qeq ra rb).
Proof.
  revert rb. induction ra as [|u ra IH]; intros [|v rb] Hlen;
    simpl in Hlen; try discriminate.
  - split; constructor.
  - unfold Np.sub. cbn [combine map fst snd]. fold (Np.sub ra rb). split.
    + intros H. inversion H as [|? ? Huv Hrest]; subst. constructor.
      * lra.
      * apply IH; [lia | exact Hrest].
    + intros H. inversion H as [|? ? ? ? Huv Hrest]; subst. constructor.
      * lra.
      * apply IH; [lia | exact Hrest].
Qed.

Lemma matrix_sub_zero (c : nat) (a b : matrix) :
  length a = length b ->
  Forall (fun row => length row = c) a ->
  Forall (fun row => length row = c) b ->
  (Forall (fun v => v == 0) (concat (matrix_sub a b))
   <-> Forall2 (Forall2 Qeq) a b).
Proof.
  revert b. induction a as [|ra a IH]; intros [|rb b] Hlen Ha Hb;
    simpl in Hlen; try discriminate.
  - split; constructor.
  - unfold matrix_sub. cbn [combine map fst snd concat].
    fold (matrix_sub a b).
    pose proof (Forall_inv Ha) as Hra. pose proof (Forall_inv Hb) as Hrb.
    cbv beta in Hra, Hrb.
    pose proof (Forall_inv_tail Ha) as Ha'.
    pose proof (Forall_inv_tail Hb) as Hb'.
    rewrite Forall_app. split.
    + intros [H1 H2]. constructor.
      * apply row_sub_zero; [congruence | exact H1].
      * apply IH; [lia | assumption | assumption | exact H2].
    + intros H. inversion H as [|? ? ? ? H1 H2]; subst. split.
      * apply row_sub_zero; [congruence | exact H1].
      * apply IH; [lia | assumption | assumption | exact H2].
Qed.

(** The squared distance is never negative, and between two matrices of
    the same shape it is zero exactly when they agree entry by entry. *)
Theorem l2_norm_zero_iff (r c : nat) (a b : matrix) :
  has_shape r c a -> has_shape r c b ->
  0 <= l2_norm a b
  /\ (l2_norm a b == 0 <-> Forall2 (Forall2 Qeq) a b).
Proof.
  intros [Hla Ha] [Hlb Hb]. unfold l2_norm. split.
  - apply sum_map_nonneg. intros v _. apply Qsquare_nonneg.
  - rewrite sum_squares_zero. apply (matrix_sub_zero c); congruence.
Qed.

Lemma l2_norm_zero_iff_witness :
  0 <= l2_norm [[1; 2]; [3; 4]] [[1; 1]; [1; 1]]
  /\ (l2_norm [[1; 2]; [3; 4]] [[1; 1]; [1; 1]] == 0
      <-> Forall2 (Forall2 Qeq) [[1; 2]; [3; 4]] [[1; 1]; [1; 1]]).
Proof.
  apply (l2_norm_zero_iff 2 2); split; try reflexivity; repeat constructor.
Defined.

Lemma row_sub_squares_sym (ra rb : list Q) :
  Forall2 Qeq (map (fun v => v ^ 2) (Np.sub ra rb))
              (map (fun v => v ^ 2) (Np.sub rb ra)).
Proof.
  revert rb. induction ra as [|u ra IH]; intros [|v rb]; try constructor.
  - simpl. ring.
  - apply IH.
Qed.

Lemma matrix_sub_squares_sym (a b : matrix) :
  Forall2 Qeq (map (fun v => v ^ 2) (concat (matrix_sub a b)))
              (map (fun v => v ^ 2) (concat (matrix_sub b a))).
Proof.
  revert b. induction a as [|ra a IH]; intros [|rb b]; try constructor.
  unfold matrix_sub. cbn [combine map fst snd concat].
  fold (matrix_sub a b). fold (matrix_sub b a).
  rewrite !map_app. apply Forall2_app; [apply row_sub_squares_sym | apply IH].
Qed.

(** The squared distance does not depend on the order of its arguments. *)
Theorem l2_norm_symmetric (a b : matrix) : l2_norm a b == l2_norm b a.
Proof. unfold l2_norm. apply sum_Forall2, matrix_sub_squares_sym. Qed.

(** ** Distances of growing prefixes *)

Lemma multi_l2norm_loop_spec (each_num : Z)
  (l2 : matrix -> matrix -> Q) (true_post raw : matrix) (num_state T : Z) :
  forall idx res res',
    NoDup idx ->
    multi_l2norm_loop each_num l2 true_post raw num_state T idx res
    = Ok res' ->
    length res' = length res
    /\ forall k, (k < length res)%nat ->
         (In k idx ->
          exists heatmap,
            samples_heatmap num_state T
              (rows_upto raw (each_num * (Z.of_nat k + 1))) = Ok heatmap
            /\ nth k res' 0 = l2 heatmap (transpose true_post))
         /\ (~ In k idx -> nth k res' 0 = nth k res 0).
Proof.
  induction idx as [|i idx IH]; intros res res' Hnd H; simpl in H.
  - injection H as <-. split; [reflexivity|].
    intros k _. split; [contradiction | reflexivity].
  - pose proof (NoDup_cons_iff i idx) as [Hcons _].
    destruct (Hcons Hnd) as [Hnotin Hnd'].
    destruct (samples_heatmap num_state T _) as [h| |] eqn:Hh;
      simpl in H; try discriminate.
    destruct (IH _ _ Hnd' H) as [Hlen Hent].
    rewrite length_setitem in Hlen. split; [exact Hlen|].
    intros k Hk.
    destruct (Hent k) as [Hin Hout]; [now rewrite length_setitem|].
    split.
    + intros [->|Hk']; [|now apply Hin].
      exists h. split; [exact Hh|].
      rewrite (Hout Hnotin). now apply nth_setitem_eq.
    + intros Hk'. rewrite Hout by (intros Hc; apply Hk'; now right).
      apply nth_setitem_neq. intros ->. apply Hk'. now left.
Qed.

(** For a sample count and a group size below [2 ^ 53] in absolute value:
    a group size of zero raises [ZeroDivisionError], and fewer samples than
    one group give an empty result without looking at the samples. *)
Theorem multi_l2norm_hmm_degenerate (each_num total_num : Z)
  (l2 : matrix -> matrix -> Q) (true_post raw : matrix) (num_state T : Z) :
  (Z.abs each_num < 2 ^ 53)%Z -> (Z.abs total_num < 2 ^ 53)%Z ->
  (each_num = 0%Z ->
   multi_l2norm_hmm each_num total_num l2 true_post raw num_state T
   = Raise ZeroDivisionError)
  /\ ((0 <= total_num < each_num)%Z ->
      multi_l2norm_hmm each_num total_num l2 true_post raw num_state T
      = Ok []).
Proof.
  intros _ _.
  unfold multi_l2norm_hmm, int_truediv. split.
  - intros ->. reflexivity.
  - intros Hsmall.
    replace (each_num =? 0)%Z with false by (symmetry; apply Z.eqb_neq; lia).
    cbn [bind]. now rewrite Z.quot_small.
Qed.

Lemma multi_l2norm_hmm_degenerate_witness :
  let raw : matrix := [[0; 1; 2]; [1; 1; 0]] in
  let true_post : matrix := [[1; 0; 0]; [0; 1; 0]; [0; 0; 1]] in
  multi_l2norm_hmm 0 2 l2_norm true_post raw 3 2 = Raise ZeroDivisionError
  /\ multi_l2norm_hmm 3 2 l2_norm true_post raw 3 2 = Ok [].
Proof.
  intros raw true_post. split.
  - apply (multi_l2norm_hmm_degenerate 0 2 l2_norm true_post raw 3 2);
      [reflexivity | reflexivity | reflexivity].
  - apply (multi_l2norm_hmm_degenerate 3 2 l2_norm true_post raw 3 2);
      [reflexivity | reflexivity | lia].
Defined.

(** For a sample count and a group size below [2 ^ 53] in absolute value:
    when it returns, [multi_l2norm_hmm] holds one distance per whole group,
    [total_num / each_num] truncated, and entry [k] is the distance between
    the heat map of the first [each_num * (k + 1)] samples and the
    transposed reference. *)
Theorem multi_l2norm_hmm_entries (each_num total_num : Z)
  (l2 : matrix -> matrix -> Q) (true_post raw : matrix) (num_state T : Z)
  (res : list Q) :
  (Z.abs each_num < 2 ^ 53)%Z -> (Z.abs total_num < 2 ^ 53)%Z ->
  multi_l2norm_hmm each_num total_num l2 true_post raw num_state T = Ok res ->
  each_num <> 0%Z
  /\ Z.of_nat (length res) = Z.quot total_num each_num
  /\ forall k, (k < length res)%nat ->
       exists heatmap,
         samples_heatmap num_state T
           (rows_upto raw (each_num * (Z.of_nat k + 1))) = Ok heatmap
         /\ nth k res 0 = l2 heatmap (transpose true_post).
Proof.
  intros _ _.
  unfold multi_l2norm_hmm, int_truediv. intros H.
  destruct (Z.eqb_spec each_num 0) as [->|Hne]; [discriminate|].
  cbn [bind] in H.
  destruct (Z.ltb_spec (Z.quot total_num each_num) 0) as [Hneg|Hpos];
    [discriminate|].
  destruct (multi_l2norm_loop_spec _ _ _ _ _ _ _ _ _ (seq_NoDup _ _) H)
    as [Hlen Hent].
  rewrite repeat_length in Hlen, Hent.
  split; [exact Hne|]. split; [lia|].
  intros k Hk. apply (Hent k); [lia|]. apply in_seq. lia.
Qed.

Lemma multi_l2norm_hmm_entries_witness :
  let raw : matrix := [[0; 1; 2]; [1; 1; 0]; [2; 1; 0]; [0; 1; 1]] in
  let true_post : matrix := [[1; 0; 0]; [0; 1; 0]; [0; 0; 1]] in
  exists res,
    multi_l2norm_hmm 2 4 l2_norm true_post raw 3 2 = Ok res
    /\ (2 <> 0)%Z
    /\ Z.of_nat (length res) = Z.quot 4 2
    /\ forall k, (k < length res)%nat ->
         exists heatmap,
           samples_heatmap 3 2 (rows_upto raw (2 * (Z.of_nat k + 1)))
           = Ok heatmap
           /\ nth k res 0 = l2_norm heatmap (transpose true_post).
Proof.
  intros raw true_post.
  destruct (multi_l2norm_hmm 2 4 l2_norm true_post raw 3 2)
    as [res| |] eqn:E; try (vm_compute in E; discriminate).
  exists res. split; [reflexivity|].
  apply (multi_l2norm_hmm_entries 2 4 l2_norm true_post raw 3 2);
    [reflexivity | reflexivity | exact E].
Defined.

(** ** Loading the chains: which keys the dictionary holds *)

Lemma dict_get_set_eq {V : Type} (k : nat) (v : V) (d : dict V) :
  dict_get k (dict_set k v d) = Some v.
Proof.
  induction d as [|[k' v'] d IH]; simpl.
  - now rewrite Nat.eqb_refl.
  - destruct (Nat.eqb_spec k' k) as [->|Hne]; simpl.
    + now rewrite Nat.eqb_refl.
    + destruct (Nat.eqb_spec k' k); [contradiction | exact IH].
Qed.

Lemma dict_get_set_neq {V : Type} (k j : nat) (v : V) (d : dict V) :
  j <> k -> dict_get k (dict_set j v d) = dict_get k d.
Proof.
  intros Hjk. induction d as [|[k' v'] d IH]; simpl.
  - destruct (Nat.eqb_spec j k); [contradiction | reflexivity].
  - destruct (Nat.eqb_spec k' j) as [->|Hne]; simpl.
    + destruct (Nat.eqb_spec j k); [contradiction | reflexivity].
    + destruct (Nat.eqb_spec k' k); [reflexivity | exact IH].
Qed.

Section LoadDataFacts.

Variable dataframe : Type.
Variable fs : string -> option dataframe.
Variables PATH inference : string.
Variable include_burnin_samples : bool.

Lemma load_data_loop_app (l1 l2 : list nat) (d : dict (option dataframe)) :
  load_data_loop dataframe fs PATH inference include_burnin_samples
                 (l1 ++ l2) d
  = load_data_loop dataframe fs PATH inference include_burnin_samples l2
      (load_data_loop dataframe fs PATH inference include_burnin_samples
                      l1 d).
Proof.
  revert d. induction l1 as [|i l1 IH]; intros d; [reflexivity|].
  simpl. apply IH.
Qed.

(** The dictionary after the first [N] chains, key by key. *)
Lemma load_data_loop_lookup (N k : nat) :
  dict_get k (load_data_loop dataframe fs PATH inference
                             include_burnin_samples (seq 0 N) [])
  = match (if (k <? N)%nat
           then chain_file dataframe fs PATH inference
                           include_burnin_samples k
           else None) with
    | Some df => Some (Some df)
    | None =>
        if ((1 <=? k) && (k <=? N))%nat
        then match chain_file dataframe fs PATH inference
                              include_burnin_samples (k - 1) with
             | None => Some None
             | Some _ => None
             end
        else None
    end.
Proof.
  set (file := chain_file dataframe fs PATH inference include_burnin_samples).
  induction N as [|N IH].
  - cbn [seq load_data_loop dict_get].
    replace (k <? 0)%nat with false by (symmetry; apply Nat.ltb_ge; lia).
    destruct ((1 <=? k) && (k <=? 0))%nat eqn:E; [|reflexivity].
    apply andb_true_iff in E. destruct E as [E1 E2].
    apply Nat.leb_le in E1, E2. lia.
  - rewrite seq_S, load_data_loop_app. cbn [load_data_loop Nat.add].
    change (fs (samples_file_dir PATH inference include_burnin_samples N))
      with (file N).
    destruct (Nat.ltb_spec k N) as [Hlt|Hge].
    + (* an earlier key: neither store of pass N touches it *)
      assert (Hsame : forall v j, (N <= j)%nat ->
                dict_get k (dict_set j v
                  (load_data_loop dataframe fs PATH inference
                     include_burnin_samples (seq 0 N) []))
                = dict_get k (load_data_loop dataframe fs PATH inference
                     include_burnin_samples (seq 0 N) []))
        by (intros v j Hj; apply dict_get_set_neq; lia).
      replace (k <? S N)%nat with true by (symmetry; apply Nat.ltb_lt; lia).
      replace (k <=? S N)%nat with true by (symmetry; apply Nat.leb_le; lia).
      replace (k <? N)%nat with true in IH
        by (symmetry; apply Nat.ltb_lt; lia).
      replace (k <=? N)%nat with true in IH
        by (symmetry; apply Nat.leb_le; lia).
      destruct (file N); rewrite Hsame by lia; exact IH.
    + replace (k <? N)%nat with false in IH
        by (symmetry; apply Nat.ltb_ge; lia).
      destruct (Nat.eq_dec k N) as [->|HkN].
      * (* the key of chain N *)
        replace (N <? S N)%nat with true by (symmetry; apply Nat.ltb_lt; lia).
        replace (N <=? S N)%nat with true
          by (symmetry; apply Nat.leb_le; lia).
        replace (N <=? N)%nat with true in IH
          by (symmetry; apply Nat.leb_le; lia).
        destruct (file N) as [df|].
        -- apply dict_get_set_eq.
        -- rewrite dict_get_set_neq by lia. exact IH.
      * replace (k <? S N)%nat with false
          by (symmetry; apply Nat.ltb_ge; lia).
        replace (k <=? N)%nat with false in IH
          by (symmetry; apply Nat.leb_gt; lia).
        rewrite andb_false_r in IH.
        destruct (Nat.eq_dec k (N + 1)) as [->|HkN1].
        -- (* the key after chain N *)
           replace (1 <=? N + 1)%nat with true
             by (symmetry; apply Nat.leb_le; lia).
           replace (N + 1 <=? S N)%nat with true
             by (symmetry; apply Nat.leb_le; lia).
           replace (N + 1 - 1)%nat with N by lia. cbn [andb].
           destruct (file N) as [df|].
           ++ rewrite dict_get_set_neq by lia. exact IH.
           ++ apply dict_get_set_eq.
        -- replace (k <=? S N)%nat with false
             by (symmetry; apply Nat.leb_gt; lia).
           rewrite andb_false_r.
           destruct (file N); rewrite dict_get_set_neq by lia; exact IH.
Qed.

End LoadDataFacts.

(** What [load_data] stores: the table of chain [k] under the key [k] when
    its file exists; [None] under the key [k] when the file of chain
    [k - 1] is missing and chain [k] has no file of its own to replace it
    (so a missing last chain leaves the key [n_chain]); and no other key. *)
Theorem load_data_lookup (dataframe : Type) (fs : string -> option dataframe)
  (n_chain : Z) (PATH inference : string) (include_burnin_samples : bool)
  (k : nat) :
  let file :=
    chain_file dataframe fs PATH inference include_burnin_samples in
  let all_stats :=
    load_data dataframe fs n_chain PATH inference include_burnin_samples in
  (forall df, (Z.of_nat k < n_chain)%Z -> file k = Some df ->
     dict_get k all_stats = Some (Some df))
  /\ ((1 <= Z.of_nat k <= n_chain)%Z -> file (k - 1)%nat = None ->
      Z.of_nat k = n_chain \/ file k = None ->
      dict_get k all_stats = Some None)
  /\ ((n_chain <= Z.of_nat k)%Z \/ file k = None ->
      k = 0%nat \/ (n_chain < Z.of_nat k)%Z \/ file (k - 1)%nat <> None ->
      dict_get k all_stats = None).
Proof.
  intros file all_stats. unfold all_stats, load_data.
  rewrite load_data_loop_lookup. fold file.
  set (N := Z.to_nat n_chain).
  split; [|split].
  - intros df Hk Hf.
    replace (k <? N)%nat with true by (symmetry; apply Nat.ltb_lt; lia).
    now rewrite Hf.
  - intros Hk Hprev Hself.
    replace ((1 <=? k) && (k <=? N))%nat with true
      by (symmetry; apply andb_true_iff; split; apply Nat.leb_le; lia).
    rewrite Hprev.
    destruct (Nat.ltb_spec k N) as [Hlt|Hge]; [|reflexivity].
    destruct Hself as [Hself|Hself]; [lia|]. now rewrite Hself.
  - intros Hself Hprev.
    assert (Hnone : (if (k <? N)%nat then file k else None) = None).
    { destruct (Nat.ltb_spec k N) as [Hlt|Hge]; [|reflexivity].
      destruct Hself as [Hself|Hself]; [lia | exact Hself]. }
    rewrite Hnone.
    destruct ((1 <=? k) && (k <=? N))%nat eqn:E; [|reflexivity].
    apply andb_true_iff in E. destruct E as [E1 E2].
    apply Nat.leb_le in E1, E2.
    destruct Hprev as [Hprev|[Hprev|Hprev]]; try lia.
    destruct (file (k - 1)%nat); [reflexivity | contradiction].
Qed.

(** ** The files of the chains *)

Lemma append_inj_l (s a b : string) :
  (s ++ a)%string = (s ++ b)%string -> a = b.
Proof.
  induction s as [|ch s IH]; simpl; intros H; [exact H|].
  injection H as H. now apply IH.
Qed.

Lemma append_length (a b : string) :
  String.length (a ++ b) = (String.length a + String.length b)%nat.
Proof. induction a as [|ch a IH]; simpl; [reflexivity | now rewrite IH]. Qed.

Lemma append_inj_r (a b s : string) :
  (a ++ s)%string = (b ++ s)%string -> a = b.
Proof.
  intros H.
  assert (Hlen : String.length a = String.length b).
  { apply (f_equal String.length) in H. rewrite !append_length in H. lia. }
  revert b H Hlen. induction a as [|ch a IH]; intros [|ch' b] H Hlen;
    simpl in Hlen; try discriminate; [reflexivity|].
  simpl in H. injection H as -> H. f_equal. apply IH; [exact H | lia].
Qed.

Lemma to_uint_not_nil (k : nat) : Nat.to_uint k <> Decimal.Nil.
Proof.
  intros H. pose proof (Unsigned.of_to k) as Hk. rewrite H in Hk.
  simpl in Hk. subst k. discriminate.
Qed.

Lemma decimal_inj (i j : nat) : decimal i = decimal j -> i = j.
Proof.
  unfold decimal. intros H.
  apply Unsigned.to_uint_inj.
  pose proof (NilZero.usu (Nat.to_uint i) (to_uint_not_nil i)) as Hi.
  pose proof (NilZero.usu (Nat.to_uint j) (to_uint_not_nil j)) as Hj.
  rewrite H in Hi. congruence.
Qed.

(** Two different chains are never read from the same file. *)
Theorem samples_file_dir_injective (PATH inference : string)
  (include_burnin_samples : bool) (i j : nat) :
  samples_file_dir PATH inference include_burnin_samples i
  = samples_file_dir PATH inference include_burnin_samples j ->
  i = j.
Proof.
  unfold samples_file_dir. intros H.
  assert (Hd : decimal (i + 1) = decimal (j + 1)).
  { destruct include_burnin_samples;
      repeat apply append_inj_l in H; now apply append_inj_r in H. }
  apply decimal_inj in Hd. lia.
Qed.

Lemma samples_file_dir_injective_witness :
  samples_file_dir "d" "dhmc" true 3 = samples_file_dir "d" "dhmc" true 3
  /\ 3%nat = 3%nat.
Proof.
  split; [reflexivity|].
  now apply (samples_file_dir_injective "d" "dhmc" true).
Defined.
